(** * Coverage data utilities (analysis/coverage_data_utils.py)

    A shallow embedding of the coverage aggregation helpers of the
    analysis package, and the properties of them that the specification
    states.

    Conventions of the embedding:
    - a Python [str] is its sequence of Unicode code points;
    - a Python [dict] is an association list in insertion order, read with
      [dict_get] and written with [dict_set];
    - a Python [set] of regions is a [gset]; iterating over it visits
      [elements];
    - a function that can raise returns a [result]. *)

From Stdlib Require Import ZArith NArith Lia.
From Stdlib Require Import Ascii String.
From stdpp Require Import base decidable option list list_numbers gmap sets.

Local Open Scope N_scope.
Local Open Scope nat_scope.

#[local] Set Warnings "-clear-no-such-hyp".

(** ** Exceptions *)

Inductive exn : Type :=
| KeyError
| ValueError
| IndexError
| OSError.

Inductive result (A : Type) : Type :=
| Ok (a : A)
| Raise (e : exn).
Arguments Ok {A} a.
Arguments Raise {A} e.

Global Instance result_ret : MRet result := λ A a, Ok a.
Global Instance result_bind : MBind result := λ A B f m,
  match m with
  | Ok a => f a
  | Raise e => Raise e
  end.

(** A [for] loop whose body may raise: the state is threaded through the
    elements in order and the first exception ends the loop. *)
Fixpoint for_loop {S A : Type} (body : S → A → result S) (s : S) (l : list A)
  : result S :=
  match l with
  | [] => Ok s
  | x :: l' =>
      match body s x with
      | Ok s' => for_loop body s' l'
      | Raise e => Raise e
      end
  end.

(** ** Strings *)

Abbreviation char := N (only parsing).
Abbreviation str := (list N) (only parsing).

(** A literal of the source, as code points. *)
Definition lit (s : string) : str := N_of_ascii <$> list_ascii_of_string s.

(** [str.isspace] on one code point: the characters that [str.split()]
    treats as separators. *)
Definition isspace (c : char) : bool :=
  ((9 <=? c) && (c <=? 13) || (28 <=? c) && (c <=? 32)
   || (c =? 133) || (c =? 160) || (c =? 5760)
   || (8192 <=? c) && (c <=? 8202)
   || (c =? 8232) || (c =? 8233) || (c =? 8239) || (c =? 8287)
   || (c =? 12288))%N.

(** [s.split()] without arguments: the maximal runs of non-whitespace
    characters of [s], in order.  [tok] is the run being read. *)
Fixpoint split_from (tok : str) (s : str) : list str :=
  match s with
  | [] => match tok with [] => [] | _ => [tok] end
  | c :: s' =>
      if isspace c then
        match tok with
        | [] => split_from [] s'
        | _ => tok :: split_from [] s'
        end
      else split_from (tok ++ [c]) s'
  end.

Definition split (s : str) : list str := split_from [] s.

(** [a, b = l]: unpacking into two names raises [ValueError] unless the
    sequence has exactly two items. *)
Definition unpack2 {A : Type} (l : list A) : result (A * A) :=
  match l with
  | [a; b] => Ok (a, b)
  | _ => Raise ValueError
  end.

Definition startswith (c : char) (s : str) : bool :=
  match s with
  | [] => false
  | x :: _ => bool_decide (x = c)
  end.

Definition endswith (c : char) (s : str) : bool :=
  match last s with
  | None => false
  | Some x => bool_decide (x = c)
  end.

(** [posixpath.join(a, *p)]: a component that starts with the separator
    replaces what was joined so far; the separator is inserted unless the
    path so far is empty or already ends with it. *)
Definition sep : char := 47%N.

Definition join_step (path b : str) : str :=
  if startswith sep b then b
  else if bool_decide (path = []) || endswith sep path then path ++ b
  else path ++ [sep] ++ b.

Definition posixpath_join (a : str) (p : list str) : str :=
  foldl join_step a p.

(** ** Dictionaries *)

Abbreviation dict K V := (list (K * V)) (only parsing).

Section dict.
Context {K V : Type} `{EqDecision K}.

Fixpoint dict_get (d : dict K V) (k : K) : option V :=
  match d with
  | [] => None
  | (k', v) :: d' => if decide (k' = k) then Some v else dict_get d' k
  end.

(** [d[k] = v]: an existing key keeps its position. *)
Fixpoint dict_set (d : dict K V) (k : K) (v : V) : dict K V :=
  match d with
  | [] => [(k, v)]
  | (k', v') :: d' =>
      if decide (k' = k) then (k, v) :: d' else (k', v') :: dict_set d' k v
  end.

(** [d[k]] on a plain dict. *)
Definition getitem (d : dict K V) (k : K) : result V :=
  match dict_get d k with
  | Some v => Ok v
  | None => Raise KeyError
  end.

(** [d[k]] on a [collections.defaultdict]: a missing key is first
    inserted with the default value. *)
Definition dd_getitem (dflt : V) (d : dict K V) (k : K) : V * dict K V :=
  match dict_get d k with
  | Some v => (v, d)
  | None => (dflt, dict_set d k dflt)
  end.

Definition keys (d : dict K V) : list K := d.*1.
End dict.

(** [l.unique()]: the distinct values of a column, in order of first
    appearance. *)
Fixpoint unique_from {A : Type} `{EqDecision A} (seen l : list A) : list A :=
  match l with
  | [] => []
  | x :: l' =>
      if decide (x ∈ seen) then unique_from seen l'
      else x :: unique_from (x :: seen) l'
  end.

Definition unique {A : Type} `{EqDecision A} (l : list A) : list A :=
  unique_from [] l.

(** [l[0]]. *)
Definition item0 {A : Type} (l : list A) : result A :=
  match l with
  | [] => Raise IndexError
  | x :: _ => Ok x
  end.

(** ** Data *)

(** A region as decoded from JSON is an array of integers; [tuple] turns it
    into the hashable value stored in sets. *)
Abbreviation region := (list Z) (only parsing).

Definition tuple (r : list Z) : region := r.

(** The value stored for one fuzzer-benchmark pair: the decoded JSON array
    of regions, or the empty dict that stands for a failed download.  The
    code only takes its length and iterates over it. *)
Inductive covered_regions : Type :=
| EmptyDict
| RegionList (l : list (list Z)).

Definition py_iter (c : covered_regions) : list (list Z) :=
  match c with
  | EmptyDict => []
  | RegionList l => l
  end.

Definition len (c : covered_regions) : nat := length (py_iter c).

(** The columns of the experiment data frame that this module reads. *)
Record experiment_row : Type := {
  row_experiment_filestore : str;
  row_experiment : str;
  row_fuzzer : str;
  row_benchmark : str
}.

(** The frame built from [{'fuzzer': [...], 'unique_regions_covered': [...]}]. *)
Record unique_cov_df : Type := {
  uc_fuzzer : list str;
  unique_regions_covered : list nat
}.

(** The frame built from [{'fuzzer': [...], 'aggregated_edges_covered': [...]}]. *)
Record aggregated_cov_df : Type := {
  ac_fuzzer : list str;
  aggregated_edges_covered : list nat
}.

(** [pd.DataFrame(values, index=..., columns=...)]. *)
Record pairwise_df : Type := {
  pw_values : list (list nat);
  pw_index : list str;
  pw_columns : list str
}.

(** The cell at row [i] and column [j], by position. *)
Definition pw_cell (t : pairwise_df) (i j : nat) : option nat :=
  row ← pw_values t !! i; row !! j.

(** ** Keys and paths *)

Definition get_fuzzer_benchmark_key (fuzzer benchmark : str) : str :=
  fuzzer ++ lit " " ++ benchmark.

Definition get_experiment_filestore_path (df : list experiment_row)
  : result str :=
  filestore_path ← item0 (unique (row_experiment_filestore <$> df));
  exp_name ← item0 (unique (row_experiment <$> df));
  mret (posixpath_join filestore_path [exp_name]).

Definition get_coverage_report_filestore_path
    (fuzzer benchmark : str) (df : list experiment_row) : result str :=
  let df := filter (λ r, row_fuzzer r = fuzzer) df in
  let df := filter (λ r, row_benchmark r = benchmark) df in
  experiment_filestore_path ← get_experiment_filestore_path df;
  mret (posixpath_join experiment_filestore_path
          [lit "coverage"; lit "reports"; benchmark; fuzzer;
           lit "index.html"]).

(** ** Retrieval *)

(** The two file names computed at the start of
    [get_fuzzer_covered_regions]. *)
Definition dst_file (fuzzer benchmark temp_dir : str) : str :=
  posixpath_join temp_dir [fuzzer ++ lit "-" ++ benchmark ++ lit "-coverage.json"].

Definition src_file (fuzzer benchmark filestore : str) : str :=
  posixpath_join filestore
    [lit "coverage"; lit "data"; benchmark; fuzzer;
     lit "covered_regions.json"].

Section retrieval.
(** The state of the filestore and of the local file system. *)
Context {world : Type}.

(** [filestore_utils.cp] belongs to the [common] package and is a
    parameter here: the operation
    [copy(source_path, destination_path) -> status], which with
    [expect_zero=False] reports a failed copy by a non-zero [retcode]
    of the value it returns. *)
Variable filestore_cp : str → str → world → Z * world.

(** [open(path)] followed by [json.load]: either may raise. *)
Variable open_json_load : str → world → result covered_regions.

Definition get_fuzzer_covered_regions
    (fuzzer benchmark filestore temp_dir : str) (w : world)
  : result covered_regions * world :=
  let dst_file := dst_file fuzzer benchmark temp_dir in
  let src_file := src_file fuzzer benchmark filestore in
  let '(retcode, w) := filestore_cp src_file dst_file w in
  if decide (retcode ≠ 0%Z) then (Ok EmptyDict, w)
  else (open_json_load dst_file w, w).

Definition get_fuzzer_benchmark_covered_regions
    (args : str * str * str * str) (w : world)
  : result (str * covered_regions) * world :=
  let '(fuzzer, benchmark, filestore_path, temp_dir) := args in
  let '(fuzzer_benchmark_covered_regions, w) :=
    get_fuzzer_covered_regions fuzzer benchmark filestore_path temp_dir w in
  let key := get_fuzzer_benchmark_key fuzzer benchmark in
  (regions ← fuzzer_benchmark_covered_regions; mret (key, regions), w).
End retrieval.

(** ** Unique regions *)

Definition threshold_count : nat := 1.

(** [region_dict[region].append(fuzzer)] on a [defaultdict(list)]. *)
Definition region_dict_append (fuzzer : str)
    (region_dict : dict region (list str)) (r : region)
  : dict region (list str) :=
  let '(fuzzers, region_dict) := dd_getitem [] region_dict r in
  dict_set region_dict r (fuzzers ++ [fuzzer]).

(** The first loop of [get_unique_region_dict].  The inner lookup is on a
    key of the dict being iterated, so it cannot fail. *)
Definition build_region_dict (benchmark_coverage_dict : dict str (gset region))
  : dict region (list str) :=
  foldl (λ region_dict fuzzer,
           foldl (region_dict_append fuzzer) region_dict
             (elements (default ∅ (dict_get benchmark_coverage_dict fuzzer))))
    [] (keys benchmark_coverage_dict).

Definition get_unique_region_dict
    (benchmark_coverage_dict : dict str (gset region))
  : dict region (list str) :=
  let region_dict := build_region_dict benchmark_coverage_dict in
  foldl (λ unique_region_dict '(region, fuzzers),
           if decide (length fuzzers ≤ threshold_count)
           then dict_set unique_region_dict region fuzzers
           else unique_region_dict)
    [] region_dict.

(** [fuzzers[fuzzer] += 1] on a [defaultdict(int)]. *)
Definition counter_incr (fuzzers : dict str nat) (fuzzer : str)
  : dict str nat :=
  let '(n, fuzzers) := dd_getitem 0 fuzzers fuzzer in
  dict_set fuzzers fuzzer (n + 1).

(** The first loop of [get_unique_region_cov_df]. *)
Definition count_unique_regions (unique_region_dict : dict region (list str))
  : dict str nat :=
  foldl (λ fuzzers region,
           foldl counter_incr fuzzers
             (default [] (dict_get unique_region_dict region)))
    [] (keys unique_region_dict).

Definition get_unique_region_cov_df
    (unique_region_dict : dict region (list str)) (fuzzer_names : list str)
  : unique_cov_df :=
  let fuzzers := count_unique_regions unique_region_dict in
  let dict_to_transform := {| uc_fuzzer := []; unique_regions_covered := [] |} in
  fst (foldl (λ '(dict_to_transform, fuzzers) fuzzer,
                let '(covered_num, fuzzers) := dd_getitem 0 fuzzers fuzzer in
                ({| uc_fuzzer := uc_fuzzer dict_to_transform ++ [fuzzer];
                    unique_regions_covered :=
                      unique_regions_covered dict_to_transform ++ [covered_num] |},
                 fuzzers))
         (dict_to_transform, fuzzers) fuzzer_names).

(** ** Per-benchmark aggregation *)

(** The inner loop of [get_benchmark_cov_dict]. *)
Definition covered_regions_in_set (covered_regions : covered_regions)
  : gset region :=
  foldl (λ s region, s ∪ {[tuple region]}) ∅ (py_iter covered_regions).

Definition get_benchmark_cov_dict
    (coverage_dict : dict str covered_regions) (benchmark : str)
  : result (dict str (gset region)) :=
  for_loop (λ benchmark_cov_dict '(key_pair, covered_regions),
              '(current_fuzzer, current_benchmark) ← unpack2 (split key_pair);
              if decide (current_benchmark = benchmark)
              then mret (dict_set benchmark_cov_dict current_fuzzer
                           (covered_regions_in_set covered_regions))
              else mret benchmark_cov_dict)
    [] coverage_dict.

Definition get_benchmark_aggregated_cov_df
    (coverage_dict : dict str covered_regions) (benchmark : str)
  : result aggregated_cov_df :=
  for_loop (λ dict_to_transform '(key_pair, covered_regions),
              '(current_fuzzer, current_benchmark) ← unpack2 (split key_pair);
              if decide (current_benchmark = benchmark)
              then mret {| ac_fuzzer := ac_fuzzer dict_to_transform ++ [current_fuzzer];
                           aggregated_edges_covered :=
                             aggregated_edges_covered dict_to_transform
                             ++ [len covered_regions] |}
              else mret dict_to_transform)
    {| ac_fuzzer := []; aggregated_edges_covered := [] |} coverage_dict.

(** ** Pairwise unique coverage *)

Definition get_unique_covered_percentage
    (fuzzer_row_covered_regions fuzzer_col_covered_regions : gset region)
  : nat :=
  foldl (λ unique_region_count region,
           if decide (region ∉ fuzzer_row_covered_regions)
           then unique_region_count + 1
           else unique_region_count)
    0 (elements fuzzer_col_covered_regions).

Definition get_pairwise_unique_coverage_table
    (benchmark_coverage_dict : dict str (gset region)) (fuzzers : list str)
  : result pairwise_df :=
  pairwise_unique_coverage_values ←
    for_loop (λ values fuzzer_in_row,
                row ← for_loop (λ row fuzzer_in_col,
                                  r ← getitem benchmark_coverage_dict fuzzer_in_row;
                                  c ← getitem benchmark_coverage_dict fuzzer_in_col;
                                  mret (row ++ [get_unique_covered_percentage r c]))
                         [] fuzzers;
                mret (values ++ [row]))
      [] fuzzers;
  mret {| pw_values := pairwise_unique_coverage_values;
          pw_index := fuzzers;
          pw_columns := fuzzers |}.

(** ** The example of the specification *)

Definition afl : str := lit "afl".
Definition libfuzzer : str := lit "libfuzzer".

Definition example_cov : dict str (gset region) :=
  [(afl, {[ [1%Z]; [2%Z] ]}); (libfuzzer, {[ [2%Z]; [3%Z] ]})].


(** ** The retrieval pipeline *)

(** A [for] loop whose body may raise and acts on the world. *)
Fixpoint for_loop_io {W S A : Type} (body : S → A → W → result S * W)
    (s : S) (l : list A) (w : W) : result S * W :=
  match l with
  | [] => (Ok s, w)
  | x :: l' =>
      match body s x w with
      | (Ok s', w') => for_loop_io body s' l' w'
      | (Raise e, w') => (Raise e, w')
      end
  end.

(** A pool with one worker: the tasks run one after another, in the order
    of the arguments, and the first exception ends the map. *)
Fixpoint sequential_map {W A B : Type} (f : A → W → result B * W)
    (l : list A) (w : W) : result (list B) * W :=
  match l with
  | [] => (Ok [], w)
  | x :: l' =>
      match f x w with
      | (Ok y, w') =>
          match sequential_map f l' w' with
          | (Ok ys, w'') => (Ok (y :: ys), w'')
          | (Raise e, w'') => (Raise e, w'')
          end
      | (Raise e, w') => (Raise e, w')
      end
  end.

Section pipeline.
Context {world : Type}.

Variable filestore_cp : str → str → world → Z * world.
Variable open_json_load : str → world → result covered_regions.

(** [tempfile.TemporaryDirectory()]: entering the [with] block creates a
    directory and binds its name, leaving the block removes it, also when
    the block raises. *)
Variable mkdtemp : world → str * world.
Variable rmtree : str → world → world.

(** [pool.map] of the pool that the caller passes in. *)
Variable pool_map :
  (str * str * str * str → world → result (str * covered_regions) * world) →
  list (str * str * str * str) → world →
  result (list (str * covered_regions)) * world.

Definition get_covered_regions_dict (experiment_df : list experiment_row)
    (w : world) : result (dict str covered_regions) * world :=
  let covered_regions_dict : dict str covered_regions := [] in
  let benchmarks := unique (row_benchmark <$> experiment_df) in
  let '(temp_dir, w) := mkdtemp w in
  let '(r, w) :=
    match get_experiment_filestore_path experiment_df with
    | Raise e => (Raise e, w)
    | Ok filestore_path =>
        for_loop_io
          (λ covered_regions_dict benchmark w,
             let benchmark_df :=
               filter (λ r, row_benchmark r = benchmark) experiment_df in
             let fuzzers := unique (row_fuzzer <$> benchmark_df) in
             let arguments :=
               (λ fuzzer, (fuzzer, benchmark, filestore_path, temp_dir))
               <$> fuzzers in
             let '(fuzzer_benchmark_covered_regions, w) :=
               pool_map
                 (get_fuzzer_benchmark_covered_regions
                    filestore_cp open_json_load)
                 arguments w in
             match fuzzer_benchmark_covered_regions with
             | Raise e => (Raise e, w)
             | Ok l =>
                 (Ok (foldl (λ covered_regions_dict '(fuzzer_benchmark_key, covered_regions),
                               dict_set covered_regions_dict
                                 fuzzer_benchmark_key covered_regions)
                        covered_regions_dict l), w)
             end)
          covered_regions_dict benchmarks w
    end in
  (r, rmtree temp_dir w).
End pipeline.

(** ** Vocabulary of the statements *)

(** No character of [s] is whitespace. *)
Definition no_whitespace (s : str) : Prop := Forall (λ c, isspace c = false) s.

Global Instance no_whitespace_dec s : Decision (no_whitespace s).
Proof. unfold no_whitespace. apply _. Defined.

(** A path component that [posixpath.join] appends after one separator:
    not empty and with no separator at either end. *)
Definition plain (s : str) : Prop :=
  s ≠ [] ∧ startswith sep s = false ∧ endswith sep s = false.

(** A root to which components are appended after one separator. *)
Definition open_root (s : str) : Prop := s ≠ [] ∧ endswith sep s = false.

Global Instance plain_dec s : Decision (plain s).
Proof. unfold plain. apply _. Defined.

Global Instance open_root_dec s : Decision (open_root s).
Proof. unfold open_root. apply _. Defined.

(** The fuzzers, in dict order, whose set contains region [r]. *)
Definition owners (cov : dict str (gset region)) (r : region) : list str :=
  (filter (λ e, r ∈ e.2) cov).*1.

(** The number of times [fuzzer] occurs in [l]. *)
Definition occurrences (fuzzer : str) (l : list str) : nat :=
  length (filter (λ x, x = fuzzer) l).

(** The rows of a two-column frame. *)
Definition uc_rows (df : unique_cov_df) : list (str * nat) :=
  zip (uc_fuzzer df) (unique_regions_covered df).

Definition ac_rows (df : aggregated_cov_df) : list (str * nat) :=
  zip (ac_fuzzer df) (aggregated_edges_covered df).

(** [d] is a well-formed dict: no key occurs twice. *)
Definition wf_dict {K V : Type} (d : dict K V) : Prop := NoDup (keys d).

(** The entry of [key_pair] in the combined map belongs to [fuzzer] on
    [benchmark]. *)
Definition decodes_to (key_pair fuzzer benchmark : str) : Prop :=
  split key_pair = [fuzzer; benchmark].

(** Fuzzer [f] has region [r] in its set. *)
Definition covers (cov : dict str (gset region)) (f : str) (r : region) : Prop :=
  ∃ s, dict_get cov f = Some s ∧ r ∈ s.

(** The row that an entry of the combined map contributes to the aggregate
    table of [benchmark], when its key decodes. *)
Definition aggregated_row (benchmark : str) (e : str * covered_regions)
  : option (str * nat) :=
  match split e.1 with
  | [f; b] => if decide (b = benchmark) then Some (f, len e.2) else None
  | _ => None
  end.

(** The update that an entry of the combined map makes to the per-fuzzer
    mapping of [benchmark], when its key decodes. *)
Definition cov_dict_step (benchmark : str) (bcd : dict str (gset region))
    (e : str * covered_regions) : dict str (gset region) :=
  match split e.1 with
  | [f; b] =>
      if decide (b = benchmark)
      then dict_set bcd f (covered_regions_in_set e.2) else bcd
  | _ => bcd
  end.

(** What a caller may expect of any pool: when no task raises and the
    result of a task does not depend on the world, [pool.map] returns the
    results in the order of the arguments. *)
Definition order_preserving_pool {world A B : Type}
    (pool_map : (A → world → result B * world) → list A → world →
                result (list B) * world) : Prop :=
  ∀ (f : A → world → result B * world) (g : A → B) args w,
    (∀ x w, x ∈ args → (f x w).1 = Ok (g x)) →
    (pool_map f args w).1 = Ok (g <$> args).

(** The hyphen, which separates the two names in the scratch file name. *)
Definition hyphen : char := 45%N.

(** The sets of the fuzzers other than [f]. *)
Definition other_sets (cov : dict str (gset region)) (f : str)
  : list (gset region) :=
  (filter (λ e, e.1 ≠ f) cov).*2.

(** A key as [get_fuzzer_benchmark_key] builds it from two names that are
    not empty and contain no whitespace. *)
Definition canonical_key (key : str) : Prop :=
  ∃ fuzzer benchmark,
    fuzzer ≠ [] ∧ benchmark ≠ [] ∧ no_whitespace fuzzer
    ∧ no_whitespace benchmark
    ∧ key = get_fuzzer_benchmark_key fuzzer benchmark.

(** The entries that the retrieval stores for [benchmark] when every
    download fails. *)
Definition failed_entries (experiment_df : list experiment_row)
    (benchmark : str) : dict str covered_regions :=
  (λ fuzzer, (get_fuzzer_benchmark_key fuzzer benchmark, EmptyDict))
  <$> unique (row_fuzzer
              <$> filter (λ r, row_benchmark r = benchmark) experiment_df).

(** The names of a row are not empty and contain no whitespace. *)
Definition clean_names (row : experiment_row) : Prop :=
  row_fuzzer row ≠ [] ∧ row_benchmark row ≠ []
  ∧ no_whitespace (row_fuzzer row) ∧ no_whitespace (row_benchmark row).

(** * Properties *)

(** ** Loops that may raise *)

Section for_loop.
Context {S A : Type}.
Implicit Types (body : S → A → result S) (l : list A).

(** A loop whose body never raises is a left fold. *)
Lemma for_loop_total body (step : S → A → S) s l :
  (∀ s x, x ∈ l → body s x = Ok (step s x)) →
  for_loop body s l = Ok (foldl step s l).
Proof.
  revert s. induction l as [|x l IH]; intros s Hbody; [done|].
  cbn. rewrite Hbody by left. apply IH.
  intros s' y Hy. apply Hbody. by right.
Qed.

(** If [e] is the only exception the body can raise and some element
    always raises it, the loop raises [e]. *)
Lemma for_loop_raises body s l e :
  (∀ s x e', x ∈ l → body s x = Raise e' → e' = e) →
  (∃ x, x ∈ l ∧ ∀ s, body s x = Raise e) →
  for_loop body s l = Raise e.
Proof.
  revert s. induction l as [|x l IH]; intros s Honly [y [Hy Hbad]].
  - by apply elem_of_nil in Hy.
  - cbn. destruct (body s x) as [s'|e'] eqn:Hx.
    + apply IH.
      * intros s0 z e0 Hz. apply Honly. by right.
      * exists y. split; [|done].
        apply elem_of_cons in Hy as [->|Hy]; [|done].
        rewrite Hbad in Hx. discriminate.
    + f_equal. eapply Honly; [|exact Hx]. by left.
Qed.

Lemma for_loop_only body s l e e' :
  (∀ s x e', x ∈ l → body s x = Raise e' → e' = e) →
  for_loop body s l = Raise e' → e' = e.
Proof.
  revert s. induction l as [|x l IH]; intros s Honly; [done|].
  cbn. destruct (body s x) as [s'|e0] eqn:Hx.
  - apply IH. intros s0 z e1 Hz. apply Honly. by right.
  - intros [= <-]. eapply Honly; [|exact Hx]. by left.
Qed.
End for_loop.

(** ** Splitting on whitespace *)

Lemma split_from_no_whitespace (tok a rest : str) :
  no_whitespace a → split_from tok (a ++ rest) = split_from (tok ++ a) rest.
Proof.
  intros Ha. revert tok. induction Ha as [|c a Hc _ IH]; intros tok.
  - by rewrite app_nil_r.
  - cbn. rewrite Hc, IH. by rewrite <- app_assoc.
Qed.

Lemma split_from_space (tok rest : str) :
  tok ≠ [] → split_from tok (32%N :: rest) = tok :: split_from [] rest.
Proof. intros Htok. cbn. by destruct tok. Qed.

Lemma split_key (fuzzer benchmark : str) :
  fuzzer ≠ [] → benchmark ≠ [] →
  no_whitespace fuzzer → no_whitespace benchmark →
  split (get_fuzzer_benchmark_key fuzzer benchmark) = [fuzzer; benchmark].
Proof.
  intros Hf Hb Hfw Hbw. unfold split, get_fuzzer_benchmark_key.
  rewrite split_from_no_whitespace by done. cbn [app].
  change (lit " " ++ benchmark) with (32%N :: benchmark).
  rewrite split_from_space by done.
  rewrite <- (app_nil_r benchmark) at 1.
  rewrite split_from_no_whitespace by done. cbn.
  by destruct benchmark.
Qed.

(** ** Joining paths *)

Lemma endswith_app c (a b : str) : b ≠ [] → endswith c (a ++ b) = endswith c b.
Proof.
  intros Hb. unfold endswith.
  destruct (last_is_Some b) as [_ Hl]. destruct (Hl Hb) as [x Hx].
  assert (last (a ++ b) = Some x) as ->
    by (apply last_app_Some; by left).
  by rewrite Hx.
Qed.

Lemma join_step_plain (path b : str) :
  open_root path → plain b →
  join_step path b = path ++ [sep] ++ b ∧ open_root (path ++ [sep] ++ b).
Proof.
  intros [Hp He] (Hb & Hs & Hbe). unfold join_step. rewrite Hs, He.
  rewrite bool_decide_eq_false_2 by done. split; [done|].
  split; [by destruct path|].
  rewrite app_assoc. by rewrite endswith_app.
Qed.

Lemma join_step_last (path b : str) :
  open_root path → startswith sep b = false →
  join_step path b = path ++ [sep] ++ b.
Proof.
  intros [Hp He] Hs. unfold join_step. rewrite Hs, He.
  by rewrite bool_decide_eq_false_2 by done.
Qed.

Lemma unique_head {A : Type} `{EqDecision A} (x : A) (l : list A) :
  ∃ l', unique (x :: l) = x :: l'.
Proof.
  unfold unique. cbn. rewrite decide_False by apply not_elem_of_nil. eauto.
Qed.

Lemma get_experiment_filestore_path_head (df : list experiment_row) row :
  head df = Some row →
  get_experiment_filestore_path df
  = Ok (posixpath_join (row_experiment_filestore row) [row_experiment row]).
Proof.
  destruct df as [|r df]; [done|]. intros [= ->].
  unfold get_experiment_filestore_path. rewrite !fmap_cons.
  destruct (unique_head (row_experiment_filestore row)
              (row_experiment_filestore <$> df)) as [l1 ->].
  destruct (unique_head (row_experiment row) (row_experiment <$> df)) as [l2 ->].
  done.
Qed.

Lemma experiment_path_plain (root exp : str) :
  open_root root → plain exp →
  posixpath_join root [exp] = root ++ lit "/" ++ exp
  ∧ open_root (root ++ lit "/" ++ exp).
Proof. intros Hr He. cbn. by apply join_step_plain. Qed.

Lemma join5_plain (base a b c d e : str) :
  open_root base → plain a → plain b → plain c → plain d →
  startswith sep e = false →
  posixpath_join base [a; b; c; d; e]
  = base ++ [sep] ++ a ++ [sep] ++ b ++ [sep] ++ c ++ [sep] ++ d ++ [sep] ++ e.
Proof.
  intros H0 Ha Hb Hc Hd He. cbn [posixpath_join foldl].
  destruct (join_step_plain _ _ H0 Ha) as [-> H1].
  destruct (join_step_plain _ _ H1 Hb) as [-> H2].
  destruct (join_step_plain _ _ H2 Hc) as [-> H3].
  destruct (join_step_plain _ _ H3 Hd) as [-> H4].
  rewrite (join_step_last _ _ H4 He).
  by rewrite <- !app_assoc.
Qed.

Lemma plain_coverage : plain (lit "coverage").
Proof. by vm_compute. Qed.
Lemma plain_data : plain (lit "data").
Proof. by vm_compute. Qed.
Lemma plain_reports : plain (lit "reports").
Proof. by vm_compute. Qed.

(** ** Dictionaries *)

Section dict_facts.
Context {K V : Type} `{EqDecision K}.
Implicit Types (d : dict K V) (k : K) (v : V).

Lemma dict_get_set d k v k' :
  dict_get (dict_set d k v) k' = if decide (k = k') then Some v else dict_get d k'.
Proof.
  induction d as [|[k0 v0] d IH]; cbn.
  - by repeat case_decide.
  - repeat (case_decide; cbn; simplify_eq); try done.
Qed.

Lemma dict_get_set_eq d k v : dict_get (dict_set d k v) k = Some v.
Proof. rewrite dict_get_set. by rewrite decide_True. Qed.

Lemma dict_get_set_ne d k v k' :
  k ≠ k' → dict_get (dict_set d k v) k' = dict_get d k'.
Proof. intros. rewrite dict_get_set. by rewrite decide_False. Qed.

Lemma keys_dict_set d k v :
  keys (dict_set d k v) = if decide (k ∈ keys d) then keys d else keys d ++ [k].
Proof.
  unfold keys. induction d as [|[k0 v0] d IH]; cbn.
  - by rewrite decide_False by apply not_elem_of_nil.
  - destruct (decide (k0 = k)) as [->|Hne]; cbn.
    + rewrite decide_True; [done|by left].
    + rewrite IH. destruct (decide (k ∈ d.*1)) as [Hin|Hnin].
      * rewrite decide_True; [done|by right].
      * rewrite decide_False; [done|].
        rewrite elem_of_cons. naive_solver.
Qed.

Lemma wf_dict_set d k v : wf_dict d → wf_dict (dict_set d k v).
Proof.
  unfold wf_dict. rewrite keys_dict_set. case_decide; [done|].
  intros Hd. apply NoDup_app. split_and!; [done| |apply NoDup_singleton].
  intros x Hx ->%list_elem_of_singleton. done.
Qed.

Lemma dict_get_None d k : dict_get d k = None ↔ k ∉ keys d.
Proof.
  unfold keys. induction d as [|[k0 v0] d IH]; cbn.
  - split; [intros _; apply not_elem_of_nil|done].
  - rewrite not_elem_of_cons. case_decide; naive_solver.
Qed.

Lemma dict_get_is_Some d k : is_Some (dict_get d k) ↔ k ∈ keys d.
Proof.
  rewrite <- not_eq_None_Some, dict_get_None.
  destruct (decide (k ∈ keys d)); naive_solver.
Qed.

Lemma dict_get_elem_of d k v : dict_get d k = Some v → (k, v) ∈ d.
Proof.
  induction d as [|[k0 v0] d IH]; cbn; [done|].
  case_decide; [intros [= ->]; subst; by left|].
  intros. right. auto.
Qed.

(** In a well-formed dict the entries are what lookup finds. *)
Lemma elem_of_wf_dict d k v : wf_dict d → (k, v) ∈ d → dict_get d k = Some v.
Proof.
  unfold wf_dict, keys. induction d as [|[k0 v0] d IH]; cbn.
  - intros _ Hin. by apply elem_of_nil in Hin.
  - intros [Hk0 Hd]%NoDup_cons [[= -> ->]|Hin]%elem_of_cons.
    + by rewrite decide_True.
    + rewrite decide_False; [auto|].
      intros ->. apply Hk0. by apply (list_elem_of_fmap_2 fst _ (k, v)).
Qed.

Lemma dd_getitem_fst dflt d k :
  (dd_getitem dflt d k).1 = default dflt (dict_get d k).
Proof. unfold dd_getitem. by destruct (dict_get d k). Qed.

(** Reading a [defaultdict] does not change what later reads return. *)
Lemma dd_getitem_snd dflt d k k' :
  default dflt (dict_get (dd_getitem dflt d k).2 k')
  = default dflt (dict_get d k').
Proof.
  unfold dd_getitem. destruct (dict_get d k) eqn:Hk; [done|]. cbn.
  rewrite dict_get_set. case_decide; [subst; by rewrite Hk|done].
Qed.

Lemma wf_dd_getitem dflt d k : wf_dict d → wf_dict (dd_getitem dflt d k).2.
Proof.
  unfold dd_getitem. destruct (dict_get d k); [done|]. apply wf_dict_set.
Qed.
End dict_facts.

Lemma dd_getitem_snd_ne {K V : Type} `{EqDecision K}
    (dflt : V) (d : dict K V) (k k' : K) :
  k ≠ k' → dict_get (dd_getitem dflt d k).2 k' = dict_get d k'.
Proof.
  intros Hne. unfold dd_getitem. destruct (dict_get d k); [done|].
  by apply dict_get_set_ne.
Qed.

(** ** The region dict *)

Lemma owners_cons (f : str) (s : gset region) (cov : dict str (gset region)) r :
  owners ((f, s) :: cov) r = if decide (r ∈ s) then f :: owners cov r else owners cov r.
Proof. unfold owners. rewrite filter_cons. cbn. by case_decide. Qed.

Lemma elem_of_owners (cov : dict str (gset region)) r (f : str) :
  f ∈ owners cov r ↔ ∃ s, (f, s) ∈ cov ∧ r ∈ s.
Proof.
  unfold owners. rewrite list_elem_of_fmap. split.
  - intros [[f' s] [-> [Hr Hin]%list_elem_of_filter]]. eauto.
  - intros [s [Hin Hr]]. exists (f, s). split; [done|].
    by apply list_elem_of_filter.
Qed.

Lemma NoDup_owners (cov : dict str (gset region)) r : wf_dict cov → NoDup (owners cov r).
Proof.
  unfold wf_dict, keys, owners. induction cov as [|[f s] cov IH]; cbn.
  - constructor.
  - intros [Hf Hcov]%NoDup_cons.
    case_decide; [|auto]. cbn. apply NoDup_cons. split; [|auto].
    intros [[f' s'] [Heq [_ Hin]%list_elem_of_filter]]%list_elem_of_fmap.
    cbn in Heq. subst f'. apply Hf.
    by apply (list_elem_of_fmap_2 fst _ (f, s')).
Qed.

Lemma dict_get_region_dict_append (f : str) (rd : dict region (list str)) r r' :
  dict_get (region_dict_append f rd r) r'
  = if decide (r = r') then Some (default [] (dict_get rd r) ++ [f])
    else dict_get rd r'.
Proof.
  unfold region_dict_append.
  destruct (dd_getitem [] rd r) as [fuzzers rd'] eqn:Hd.
  assert (fuzzers = default [] (dict_get rd r)) as ->
    by (rewrite <- dd_getitem_fst, Hd; done).
  assert (rd' = (dd_getitem [] rd r).2) as -> by (by rewrite Hd).
  rewrite dict_get_set. case_decide; [done|].
  by apply dd_getitem_snd_ne.
Qed.

Lemma wf_region_dict_append (f : str) (rd : dict region (list str)) r :
  wf_dict rd → wf_dict (region_dict_append f rd r).
Proof.
  intros Hwf. unfold region_dict_append.
  pose proof (wf_dd_getitem [] rd r Hwf) as Hwf'.
  destruct (dd_getitem [] rd r) as [fuzzers rd']. by apply wf_dict_set.
Qed.

Lemma dict_get_append_all (f : str) (rs : list region) (rd : dict region (list str)) r :
  NoDup rs →
  dict_get (foldl (region_dict_append f) rd rs) r
  = if decide (r ∈ rs) then Some (default [] (dict_get rd r) ++ [f])
    else dict_get rd r.
Proof.
  intros Hnd. revert rd. induction Hnd as [|r0 rs Hr0 _ IH]; intros rd; cbn.
  - by rewrite decide_False by apply not_elem_of_nil.
  - rewrite IH, !dict_get_region_dict_append.
    destruct (decide (r0 = r)) as [->|Hne].
    + rewrite decide_False by done. rewrite decide_True by left. done.
    + destruct (decide (r ∈ rs)) as [Hin|Hnin].
      * rewrite decide_True by (by right). done.
      * rewrite decide_False; [done|]. rewrite elem_of_cons. naive_solver.
Qed.

Lemma wf_append_all (f : str) (rs : list region) (rd : dict region (list str)) :
  wf_dict rd → wf_dict (foldl (region_dict_append f) rd rs).
Proof.
  revert rd. induction rs as [|r rs IH]; intros rd Hwf; [done|].
  cbn. apply IH. by apply wf_region_dict_append.
Qed.

(** The loop over the fuzzers of [cov], started on the entries [l] of it
    with the dict [rd] built so far. *)
Lemma dict_get_region_loop (cov l : dict str (gset region))
    (rd : dict region (list str)) r :
  (∀ f s, (f, s) ∈ l → dict_get cov f = Some s) →
  dict_get
    (foldl (λ region_dict fuzzer,
              foldl (region_dict_append fuzzer) region_dict
                (elements (default ∅ (dict_get cov fuzzer))))
       rd (keys l)) r
  = match owners l r with
    | [] => dict_get rd r
    | o => Some (default [] (dict_get rd r) ++ o)
    end.
Proof.
  revert rd. induction l as [|[f s] l IH]; intros rd Hl; [done|].
  cbn [keys fmap list_fmap foldl fst]. unfold keys in IH. rewrite IH; clear IH.
  2:{ intros f' s' Hin. apply Hl. by right. }
  rewrite (Hl f s) by left. cbn [default].
  rewrite owners_cons, dict_get_append_all by apply NoDup_elements.
  destruct (decide (r ∈ s)) as [Hr|Hr].
  - rewrite decide_True by (by apply elem_of_elements). cbn [default].
    destruct (owners l r); [done|]. unfold id. by rewrite <- app_assoc.
  - rewrite decide_False by (by rewrite elem_of_elements). done.
Qed.

Lemma dict_get_build_region_dict cov r :
  wf_dict cov →
  dict_get (build_region_dict cov) r
  = match owners cov r with [] => None | o => Some o end.
Proof.
  intros Hwf. unfold build_region_dict.
  rewrite dict_get_region_loop by (intros f s; by apply elem_of_wf_dict).
  done.
Qed.

Lemma wf_build_region_dict cov : wf_dict (build_region_dict cov).
Proof.
  unfold build_region_dict.
  assert (wf_dict ([] : dict region (list str))) as Hnil by constructor.
  revert Hnil. generalize ([] : dict region (list str)).
  induction (keys cov) as [|f fs IH]; intros rd Hwf; [done|].
  cbn. apply IH. by apply wf_append_all.
Qed.

(** The second loop: the entries of the region dict with at most
    [threshold_count] fuzzers are copied. *)
Lemma dict_get_unique_loop (l urd : dict region (list str)) r :
  wf_dict l →
  dict_get
    (foldl (λ unique_region_dict '(region, fuzzers),
              if decide (length fuzzers ≤ threshold_count)
              then dict_set unique_region_dict region fuzzers
              else unique_region_dict) urd l) r
  = match dict_get l r with
    | Some fuzzers =>
        if decide (length fuzzers ≤ threshold_count) then Some fuzzers
        else dict_get urd r
    | None => dict_get urd r
    end.
Proof.
  unfold wf_dict, keys. revert urd.
  induction l as [|[r0 fz] l IH]; intros urd Hwf; [done|].
  apply NoDup_cons in Hwf as [Hr0 Hwf]. cbn. rewrite IH by done.
  destruct (decide (r0 = r)) as [->|Hne].
  - assert (dict_get l r = None) as -> by (by apply dict_get_None).
    case_decide; [by rewrite dict_get_set_eq|done].
  - destruct (dict_get l r) as [fz'|]; [case_decide; [done|]|];
      (case_decide; [by rewrite dict_get_set_ne|done]).
Qed.

Lemma wf_unique_loop (l urd : dict region (list str)) :
  wf_dict urd →
  wf_dict
    (foldl (λ unique_region_dict '(region, fuzzers),
              if decide (length fuzzers ≤ threshold_count)
              then dict_set unique_region_dict region fuzzers
              else unique_region_dict) urd l).
Proof.
  revert urd. induction l as [|[r0 fz] l IH]; intros urd Hwf; [done|].
  cbn. apply IH. case_decide; [by apply wf_dict_set|done].
Qed.

Lemma wf_get_unique_region_dict cov : wf_dict (get_unique_region_dict cov).
Proof. apply wf_unique_loop. constructor. Qed.

(** What the unique-region index holds for a region. *)
Lemma dict_get_unique_region_dict cov r :
  wf_dict cov →
  dict_get (get_unique_region_dict cov) r
  = match owners cov r with [f] => Some [f] | _ => None end.
Proof.
  intros Hwf. unfold get_unique_region_dict.
  rewrite dict_get_unique_loop by apply wf_build_region_dict.
  rewrite dict_get_build_region_dict by done.
  destruct (owners cov r) as [|f [|f' o]]; [done| |].
  - by rewrite decide_True by (cbn; unfold threshold_count; lia).
  - by rewrite decide_False by (cbn; unfold threshold_count; lia).
Qed.

Lemma elem_of_unique_region_dict cov r l :
  wf_dict cov →
  (r, l) ∈ get_unique_region_dict cov → ∃ f, l = [f] ∧ owners cov r = [f].
Proof.
  intros Hwf Hin.
  apply (elem_of_wf_dict _ _ _ (wf_get_unique_region_dict cov)) in Hin.
  rewrite dict_get_unique_region_dict in Hin by done.
  destruct (owners cov r) as [|f [|f' o]]; simplify_eq. eauto.
Qed.

(** ** Counting unique regions *)

Lemma occurrences_cons (f g : str) (l : list str) :
  occurrences f (g :: l) = (if decide (g = f) then 1 else 0) + occurrences f l.
Proof. unfold occurrences. rewrite filter_cons. by case_decide. Qed.

Lemma occurrences_not_elem_of (f : str) (l : list str) :
  f ∉ l → occurrences f l = 0.
Proof.
  induction l as [|g l IH]; [done|].
  intros [Hne Hl]%not_elem_of_cons. rewrite occurrences_cons.
  rewrite decide_False by done. by rewrite IH.
Qed.

Lemma occurrences_NoDup (f : str) (l : list str) :
  NoDup l → occurrences f l = if decide (f ∈ l) then 1 else 0.
Proof.
  induction 1 as [|g l Hg _ IH]; [done|].
  rewrite occurrences_cons. destruct (decide (g = f)) as [->|Hne].
  - rewrite occurrences_not_elem_of by done.
    by rewrite decide_True by left.
  - rewrite IH. destruct (decide (f ∈ l)) as [Hin|Hnin].
    + by rewrite decide_True by (by right).
    + rewrite decide_False; [done|]. rewrite elem_of_cons. naive_solver.
Qed.

Lemma get_counter_incr (fz : dict str nat) (g f : str) :
  default 0 (dict_get (counter_incr fz g) f)
  = default 0 (dict_get fz f) + (if decide (g = f) then 1 else 0).
Proof.
  unfold counter_incr. destruct (dd_getitem 0 fz g) as [n fz'] eqn:Hd.
  assert (n = default 0 (dict_get fz g)) as ->
    by (rewrite <- dd_getitem_fst, Hd; done).
  assert (fz' = (dd_getitem 0 fz g).2) as -> by (by rewrite Hd).
  rewrite dict_get_set. case_decide; [by subst|].
  rewrite dd_getitem_snd_ne by done. lia.
Qed.

Lemma get_counter_incr_all (l : list str) (fz : dict str nat) (f : str) :
  default 0 (dict_get (foldl counter_incr fz l) f)
  = default 0 (dict_get fz f) + occurrences f l.
Proof.
  revert fz. induction l as [|g l IH]; intros fz; cbn [foldl].
  - unfold occurrences. cbn. lia.
  - rewrite IH, get_counter_incr, occurrences_cons. lia.
Qed.

Lemma get_count_loop (urd l : dict region (list str)) (fz : dict str nat) (f : str) :
  (∀ r o, (r, o) ∈ l → dict_get urd r = Some o) →
  default 0
    (dict_get
       (foldl (λ fuzzers region,
                 foldl counter_incr fuzzers (default [] (dict_get urd region)))
          fz (keys l)) f)
  = default 0 (dict_get fz f) + sum_list_with (λ e, occurrences f e.2) l.
Proof.
  revert fz. induction l as [|[r o] l IH]; intros fz Hl; cbn.
  - lia.
  - unfold keys in IH. rewrite IH by (intros r' o' Hin; apply Hl; by right).
    rewrite (Hl r o) by left. cbn [default].
    rewrite get_counter_incr_all. unfold id, occurrences. lia.
Qed.

Lemma get_count_unique_regions (urd : dict region (list str)) (f : str) :
  wf_dict urd →
  default 0 (dict_get (count_unique_regions urd) f)
  = sum_list_with (λ e, occurrences f e.2) urd.
Proof.
  intros Hwf. unfold count_unique_regions.
  rewrite get_count_loop by (intros r o; by apply elem_of_wf_dict). done.
Qed.

Lemma cov_df_loop (names : list str) (dtt : unique_cov_df) (fz : dict str nat) :
  fst (foldl (λ '(dict_to_transform, fuzzers) fuzzer,
                let '(covered_num, fuzzers) := dd_getitem 0 fuzzers fuzzer in
                ({| uc_fuzzer := uc_fuzzer dict_to_transform ++ [fuzzer];
                    unique_regions_covered :=
                      unique_regions_covered dict_to_transform ++ [covered_num] |},
                 fuzzers))
         (dtt, fz) names)
  = {| uc_fuzzer := uc_fuzzer dtt ++ names;
       unique_regions_covered :=
         unique_regions_covered dtt
         ++ ((λ f, default 0 (dict_get fz f)) <$> names) |}.
Proof.
  revert dtt fz. induction names as [|g names IH]; intros dtt fz; cbn.
  - rewrite !app_nil_r. by destruct dtt.
  - destruct (dd_getitem 0 fz g) as [n fz'] eqn:Hd.
    assert (n = default 0 (dict_get fz g)) as ->
      by (rewrite <- dd_getitem_fst, Hd; done).
    assert (fz' = (dd_getitem 0 fz g).2) as -> by (by rewrite Hd).
    rewrite IH. cbn. rewrite <- !app_assoc. cbn. do 3 f_equal.
    apply list_fmap_ext. intros _ f _. apply dd_getitem_snd.
Qed.

Lemma get_unique_region_cov_df_counts (urd : dict region (list str))
    (names : list str) :
  wf_dict urd →
  get_unique_region_cov_df urd names
  = {| uc_fuzzer := names;
       unique_regions_covered :=
         (λ f, sum_list_with (λ e, occurrences f e.2) urd) <$> names |}.
Proof.
  intros Hwf. unfold get_unique_region_cov_df. rewrite cov_df_loop. cbn.
  f_equal. apply list_fmap_ext. intros _ f _.
  by apply get_count_unique_regions.
Qed.

(** With owner lists free of repetitions, the occurrences of a fuzzer are
    the regions whose owner list contains it. *)
Lemma sum_occurrences_filter (l : dict region (list str)) (f : str) :
  Forall (λ e, NoDup e.2) l →
  sum_list_with (λ e, occurrences f e.2) l
  = length (filter (λ e, f ∈ e.2) l).
Proof.
  induction 1 as [|[r o] l Ho _ IH]; [done|].
  cbn [sum_list_with]. rewrite filter_cons, IH. cbn [snd] in *.
  rewrite occurrences_NoDup by done. by case_decide.
Qed.

Lemma sum_list_with_swap {A B : Type} (g : A → B → nat)
    (xs : list A) (ys : list B) :
  sum_list_with (λ x, sum_list_with (g x) ys) xs
  = sum_list_with (λ y, sum_list_with (λ x, g x y) xs) ys.
Proof.
  induction xs as [|x xs IH]; cbn.
  - induction ys as [|y ys IHy]; cbn; [done|]. by rewrite <- IHy.
  - rewrite IH. clear IH. induction ys as [|y ys IHy]; cbn; [done|].
    rewrite <- IHy. lia.
Qed.

Lemma sum_occurrences_singleton (names : list str) (f : str) :
  NoDup names → f ∈ names →
  sum_list_with (λ g, occurrences g [f]) names = 1.
Proof.
  induction 1 as [|g names Hg Hnd IH]; intros Hin.
  - by apply elem_of_nil in Hin.
  - cbn [sum_list_with]. rewrite occurrences_cons.
    apply elem_of_cons in Hin as [->|Hin].
    + rewrite decide_True by done.
      assert (sum_list_with (λ g0, occurrences g0 [g]) names = 0) as ->; [|done].
      clear IH Hnd. induction names as [|h names IH]; [done|].
      apply not_elem_of_cons in Hg as [Hne Hg]. cbn [sum_list_with].
      rewrite IH by done. rewrite occurrences_cons.
      by rewrite decide_False by done.
    + rewrite IH by done. rewrite decide_False by (intros ->; done). done.
Qed.

(** ** Pairwise unique coverage *)

Lemma foldl_count_filter {A : Type} (P : A → Prop) `{∀ x, Decision (P x)}
    (l : list A) (n : nat) :
  foldl (λ count x, if decide (P x) then count + 1 else count) n l
  = n + length (filter P l).
Proof.
  revert n. induction l as [|x l IH]; intros n; cbn [foldl].
  - cbn. lia.
  - rewrite IH, filter_cons. case_decide; cbn; lia.
Qed.

Lemma get_unique_covered_percentage_size (row col : gset region) :
  get_unique_covered_percentage row col = size (col ∖ row).
Proof.
  unfold get_unique_covered_percentage.
  rewrite (foldl_count_filter (λ region, region ∉ row)). cbn.
  unfold size, set_size. cbn. apply Permutation_length.
  apply NoDup_Permutation.
  - apply NoDup_filter, NoDup_elements.
  - apply NoDup_elements.
  - intros x. rewrite list_elem_of_filter, !elem_of_elements.
    rewrite elem_of_difference. naive_solver.
Qed.

Lemma foldl_snoc {A B : Type} (g : A → B) (l : list A) (acc : list B) :
  foldl (λ acc x, acc ++ [g x]) acc l = acc ++ (g <$> l).
Proof.
  revert acc. induction l as [|x l IH]; intros acc; cbn.
  - by rewrite app_nil_r.
  - rewrite IH. by rewrite <- app_assoc.
Qed.

(** The cell computed for a row fuzzer and a column fuzzer that are both
    keys of the mapping. *)
Lemma pairwise_row_total (cov : dict str (gset region))
    (fuzzers : list str) (fr : str) (acc : list nat) :
  Forall (λ f, is_Some (dict_get cov f)) fuzzers →
  is_Some (dict_get cov fr) →
  for_loop (λ row fuzzer_in_col,
              r ← getitem cov fr;
              c ← getitem cov fuzzer_in_col;
              mret (row ++ [get_unique_covered_percentage r c]))
    acc fuzzers
  = Ok (acc ++ ((λ fc, get_unique_covered_percentage
                         (default ∅ (dict_get cov fr))
                         (default ∅ (dict_get cov fc))) <$> fuzzers)).
Proof.
  intros Hall [r Hr]. rewrite <- foldl_snoc. apply for_loop_total.
  intros row fc Hfc. rewrite Forall_forall in Hall.
  destruct (Hall fc Hfc) as [c Hc]. unfold getitem. by rewrite Hr, Hc.
Qed.

Lemma pairwise_total (cov : dict str (gset region)) (fuzzers : list str) :
  Forall (λ f, is_Some (dict_get cov f)) fuzzers →
  get_pairwise_unique_coverage_table cov fuzzers
  = Ok {| pw_values :=
            (λ fr, (λ fc, get_unique_covered_percentage
                            (default ∅ (dict_get cov fr))
                            (default ∅ (dict_get cov fc))) <$> fuzzers)
            <$> fuzzers;
          pw_index := fuzzers;
          pw_columns := fuzzers |}.
Proof.
  intros Hall. unfold get_pairwise_unique_coverage_table.
  erewrite for_loop_total.
  - cbn. rewrite foldl_snoc. done.
  - intros values fr Hfr. cbn beta.
    rewrite pairwise_row_total; [done|done|].
    rewrite Forall_forall in Hall. by apply Hall.
Qed.

Lemma pairwise_raises (cov : dict str (gset region)) (fuzzers : list str) (f : str) :
  f ∈ fuzzers → dict_get cov f = None →
  get_pairwise_unique_coverage_table cov fuzzers = Raise KeyError.
Proof.
  intros Hin Hf. unfold get_pairwise_unique_coverage_table.
  assert (∀ fr (row : list nat) fc e',
            (r ← getitem cov fr; c ← getitem cov fc;
             mret (row ++ [get_unique_covered_percentage r c])) = Raise e' →
            e' = KeyError) as Hcell.
  { intros fr row fc e'. unfold getitem.
    destruct (dict_get cov fr); cbn; [|congruence].
    destruct (dict_get cov fc); cbn; [done|congruence]. }
  rewrite (for_loop_raises _ _ _ KeyError); [done| |].
  - intros values fr e' _.
    destruct (for_loop _ [] fuzzers) as [row|e0] eqn:Hrow; cbn; [done|].
    intros [= <-]. eapply for_loop_only; [|exact Hrow].
    intros row fc e1 _. apply Hcell.
  - exists f. split; [done|]. intros values.
    rewrite (for_loop_raises _ _ _ KeyError); [done| |].
    + intros row fc e' _. apply Hcell.
    + exists f. split; [done|]. intros row. unfold getitem. by rewrite Hf.
Qed.

(** ** Per-benchmark aggregation *)

Lemma covered_regions_in_set_list (regs : covered_regions) :
  covered_regions_in_set regs = list_to_set (py_iter regs).
Proof.
  unfold covered_regions_in_set, tuple.
  assert (∀ (l : list (list Z)) (acc : gset region),
            foldl (λ s region, s ∪ {[region]}) acc l = acc ∪ list_to_set l) as H.
  { induction l as [|r l IH]; intros acc; cbn.
    - set_solver.
    - rewrite IH. set_solver. }
  rewrite H. set_solver.
Qed.

Lemma size_covered_regions_in_set (regs : covered_regions) :
  NoDup (py_iter regs) → size (covered_regions_in_set regs) = len regs.
Proof.
  intros Hnd. rewrite covered_regions_in_set_list. by apply size_list_to_set.
Qed.

Lemma unpack2_split_raises (key : str) :
  length (split key) ≠ 2 → unpack2 (split key) = Raise ValueError.
Proof. destruct (split key) as [|a [|b [|c l]]]; cbn; done. Qed.

Lemma aggregated_loop (benchmark : str) (l : dict str covered_regions)
    (dtt : aggregated_cov_df) :
  foldl (λ dtt e,
           match aggregated_row benchmark e with
           | Some (f, n) =>
               {| ac_fuzzer := ac_fuzzer dtt ++ [f];
                  aggregated_edges_covered := aggregated_edges_covered dtt ++ [n] |}
           | None => dtt
           end) dtt l
  = {| ac_fuzzer := ac_fuzzer dtt ++ (omap (aggregated_row benchmark) l).*1;
       aggregated_edges_covered :=
         aggregated_edges_covered dtt ++ (omap (aggregated_row benchmark) l).*2 |}.
Proof.
  revert dtt. induction l as [|e l IH]; intros dtt; cbn.
  - rewrite !app_nil_r. by destruct dtt.
  - rewrite IH. destruct (aggregated_row benchmark e) as [[f n]|]; [|done].
    cbn. by rewrite <- !app_assoc.
Qed.

Lemma aggregated_total (d : dict str covered_regions) (benchmark : str) :
  Forall (λ key, length (split key) = 2) (keys d) →
  get_benchmark_aggregated_cov_df d benchmark
  = Ok {| ac_fuzzer := (omap (aggregated_row benchmark) d).*1;
          aggregated_edges_covered := (omap (aggregated_row benchmark) d).*2 |}.
Proof.
  intros Hkeys. unfold get_benchmark_aggregated_cov_df.
  erewrite for_loop_total; [by rewrite aggregated_loop|].
  intros dtt [key regs] Hin. cbn beta iota.
  rewrite Forall_forall in Hkeys.
  specialize (Hkeys key (list_elem_of_fmap_2 fst _ _ Hin)).
  unfold aggregated_row. cbn [fst snd].
  destruct (split key) as [|f [|b [|c l]]]; try done.
  cbn. by case_decide.
Qed.

Lemma cov_dict_total (d : dict str covered_regions) (benchmark : str) :
  Forall (λ key, length (split key) = 2) (keys d) →
  get_benchmark_cov_dict d benchmark = Ok (foldl (cov_dict_step benchmark) [] d).
Proof.
  intros Hkeys. unfold get_benchmark_cov_dict. apply for_loop_total.
  intros bcd [key regs] Hin. cbn beta iota.
  rewrite Forall_forall in Hkeys.
  specialize (Hkeys key (list_elem_of_fmap_2 fst _ _ Hin)).
  unfold cov_dict_step. cbn [fst snd].
  destruct (split key) as [|f [|b [|c l]]]; try done.
  cbn. by case_decide.
Qed.

(** The set stored for a fuzzer all of whose entries hold the same
    region list. *)
Lemma dict_get_cov_dict_loop (benchmark fuzzer key : str) (regs : covered_regions)
    (l : dict str covered_regions) (bcd : dict str (gset region)) :
  (key, regs) ∈ l → decodes_to key fuzzer benchmark →
  (∀ key' regs', (key', regs') ∈ l → decodes_to key' fuzzer benchmark →
                 regs' = regs) →
  dict_get (foldl (cov_dict_step benchmark) bcd l) fuzzer
  = Some (covered_regions_in_set regs).
Proof.
  intros Hin Hkey. induction l as [|[k' r'] l IH] using rev_ind.
  - by apply elem_of_nil in Hin.
  - intros Hsame. rewrite foldl_app. cbn [foldl].
    unfold cov_dict_step at 1. cbn [fst snd].
    assert (decodes_to k' fuzzer benchmark ∨ ¬ decodes_to k' fuzzer benchmark)
      as [Hk'|Hk'] by (unfold decodes_to; destruct (decide (split k' = [fuzzer; benchmark])); auto).
    + rewrite Hk'. rewrite decide_True by done.
      rewrite dict_get_set_eq. f_equal. f_equal.
      apply (Hsame k' r'); [|done]. apply elem_of_app. right. by left.
    + assert ((key, regs) ∈ l) as Hin'.
      { apply elem_of_app in Hin as [Hin|Hin]; [done|].
        apply list_elem_of_singleton in Hin. simplify_eq. done. }
      assert (dict_get (foldl (cov_dict_step benchmark) bcd l) fuzzer
              = Some (covered_regions_in_set regs)) as Hl.
      { apply IH; [done|]. intros key' regs' Hin''. apply Hsame.
        apply elem_of_app. by left. }
      unfold decodes_to in Hk'.
      destruct (split k') as [|f [|b [|c t]]]; try done.
      case_decide; [|done]. subst b.
      rewrite dict_get_set_ne; [done|]. intros ->. done.
Qed.

(** * The claims of the specification *)

(** ** Pairwise unique-coverage table *)

(** C1. When every listed fuzzer has a region set in the mapping,
    [get_pairwise_unique_coverage_table] returns a table whose row and
    column labels are the fuzzer list in the given order, which is square,
    whose cell at (row A, column B) is the number of regions of B's set
    that are absent from A's set, and whose diagonal is zero. *)
Theorem pairwise_table_correct (cov : dict str (gset region)) (fuzzers : list str) :
  (∀ f, f ∈ fuzzers → is_Some (dict_get cov f)) →
  ∃ t,
    get_pairwise_unique_coverage_table cov fuzzers = Ok t
    ∧ pw_index t = fuzzers
    ∧ pw_columns t = fuzzers
    ∧ length (pw_values t) = length fuzzers
    ∧ Forall (λ row, length row = length fuzzers) (pw_values t)
    ∧ (∀ i j A B sA sB,
         fuzzers !! i = Some A → fuzzers !! j = Some B →
         dict_get cov A = Some sA → dict_get cov B = Some sB →
         pw_cell t i j = Some (size (sB ∖ sA)))
    ∧ (∀ i, i < length fuzzers → pw_cell t i i = Some 0).
Proof.
  intros Hall. apply Forall_forall in Hall.
  eexists. split; [by apply pairwise_total|]. cbn.
  assert (∀ i j A B sA sB,
            fuzzers !! i = Some A → fuzzers !! j = Some B →
            dict_get cov A = Some sA → dict_get cov B = Some sB →
            pw_cell
              {| pw_values :=
                   (λ fr, (λ fc, get_unique_covered_percentage
                                   (default ∅ (dict_get cov fr))
                                   (default ∅ (dict_get cov fc))) <$> fuzzers)
                   <$> fuzzers;
                 pw_index := fuzzers; pw_columns := fuzzers |} i j
            = Some (size (sB ∖ sA))) as Hcell.
  { intros i j A B sA sB Hi Hj HA HB. unfold pw_cell. cbn.
    rewrite list_lookup_fmap, Hi. cbn.
    rewrite list_lookup_fmap, Hj. cbn.
    rewrite HA, HB. cbn. f_equal. apply get_unique_covered_percentage_size. }
  split_and!; try done.
  - by rewrite length_fmap.
  - apply Forall_fmap, Forall_forall. intros fr _. cbn. by rewrite length_fmap.
  - intros i Hi. destruct (lookup_lt_is_Some_2 fuzzers i Hi) as [A HA].
    rewrite Forall_forall in Hall.
    destruct (Hall A) as [sA HsA]; [by eapply list_elem_of_lookup_2|].
    rewrite (Hcell i i A A sA sA) by done. f_equal.
    replace (sA ∖ sA) with (∅ : gset region) by set_solver. done.
Qed.

Lemma pairwise_table_correct_witness :
  ∃ t,
    get_pairwise_unique_coverage_table example_cov [afl; libfuzzer] = Ok t
    ∧ pw_index t = [afl; libfuzzer]
    ∧ pw_cell t 0 1 = Some 1.
Proof.
  assert (∀ f, f ∈ [afl; libfuzzer] → is_Some (dict_get example_cov f)) as H.
  { intros f Hf. by apply dict_get_is_Some. }
  destruct (pairwise_table_correct example_cov [afl; libfuzzer] H)
    as (t & Ht & Hidx & _ & _ & _ & Hcell & _).
  exists t. split_and!; [done|done|].
  rewrite (Hcell 0 1 afl libfuzzer {[ [1%Z]; [2%Z] ]} {[ [2%Z]; [3%Z] ]})
    by reflexivity.
  by vm_compute.
Defined.

(** ** Unique-region index *)

Lemma covers_owners (cov : dict str (gset region)) (f : str) (r : region) :
  wf_dict cov → covers cov f r ↔ f ∈ owners cov r.
Proof.
  intros Hwf. rewrite elem_of_owners. unfold covers.
  split; intros [s [Hs Hr]]; exists s; split; try done.
  - by apply dict_get_elem_of.
  - by apply elem_of_wf_dict.
Qed.

(** C2. With the threshold fixed at 1, the index built by
    [get_unique_region_dict] holds exactly the regions that lie in some
    fuzzer's set and in at most one, each mapped to the list of the fuzzers
    that cover it: a region in the sets of two fuzzers is absent, and a
    region in the set of exactly one fuzzer is present with that single
    owner. *)
Theorem unique_region_index_correct (cov : dict str (gset region)) (r : region) :
  wf_dict cov →
  threshold_count = 1
  ∧ (r ∈ keys (get_unique_region_dict cov)
     ↔ (∃ f, covers cov f r)
       ∧ (∀ f g, covers cov f r → covers cov g r → f = g))
  ∧ (∀ l, dict_get (get_unique_region_dict cov) r = Some l →
          ∀ f, f ∈ l ↔ covers cov f r)
  ∧ (∀ f g, f ≠ g → covers cov f r → covers cov g r →
            dict_get (get_unique_region_dict cov) r = None)
  ∧ (∀ f, covers cov f r → (∀ g, covers cov g r → g = f) →
          dict_get (get_unique_region_dict cov) r = Some [f]).
Proof.
  intros Hwf. pose proof (NoDup_owners cov r Hwf) as Hnd.
  assert (∀ f, covers cov f r ↔ f ∈ owners cov r) as Hcov
    by (intros f; by apply covers_owners).
  rewrite <- dict_get_is_Some. setoid_rewrite Hcov.
  rewrite dict_get_unique_region_dict by done.
  split; [done|].
  destruct (owners cov r) as [|f0 [|f1 o]]; split_and!.
  - split; [by intros [? ?]|]. intros [[f Hf] _]. by apply elem_of_nil in Hf.
  - done.
  - intros f g _ Hf. by apply elem_of_nil in Hf.
  - intros f Hf. by apply elem_of_nil in Hf.
  - split; [|by eauto]. intros _. split; [exists f0; by left|].
    intros f g ->%list_elem_of_singleton ->%list_elem_of_singleton. done.
  - by intros l [= <-] f.
  - intros f g Hne ->%list_elem_of_singleton ->%list_elem_of_singleton. done.
  - by intros f ->%list_elem_of_singleton _.
  - split; [by intros [? ?]|]. intros [_ Hsame]. exfalso.
    apply NoDup_cons in Hnd as [Hf0 _]. apply Hf0.
    rewrite (Hsame f0 f1); [left|left|right; left].
  - done.
  - done.
  - intros f Hf Hsame. exfalso.
    apply NoDup_cons in Hnd as [Hf0 _]. apply Hf0.
    rewrite (Hsame f0), <- (Hsame f1); [left|right; left|left].
Qed.

Lemma unique_region_index_correct_witness :
  dict_get (get_unique_region_dict example_cov) [2%Z] = None
  ∧ dict_get (get_unique_region_dict example_cov) [1%Z] = Some [afl].
Proof.
  assert (wf_dict example_cov) as Hwf
    by (unfold wf_dict; apply (bool_decide_unpack _); by vm_compute).
  assert (covers example_cov afl [1%Z]) as H1
    by (eexists; split; [reflexivity|by vm_compute]).
  assert (covers example_cov afl [2%Z]) as H2
    by (eexists; split; [reflexivity|by vm_compute]).
  assert (covers example_cov libfuzzer [2%Z]) as H3
    by (eexists; split; [reflexivity|by vm_compute]).
  split.
  - destruct (unique_region_index_correct example_cov [2%Z] Hwf)
      as (_ & _ & _ & Habsent & _).
    by apply (Habsent afl libfuzzer).
  - destruct (unique_region_index_correct example_cov [1%Z] Hwf)
      as (_ & _ & _ & _ & Hpresent).
    apply Hpresent; [done|].
    intros g [s [Hg Hr]]. apply dict_get_elem_of in Hg.
    apply elem_of_cons in Hg as [[= -> ->]|Hg]; [done|].
    apply list_elem_of_singleton in Hg as [= -> ->].
    exfalso. revert Hr. by vm_compute.
Defined.

(** ** Unique-region counts *)

(** Every index that [get_unique_region_dict] builds is a well-formed dict
    whose owner lists repeat no fuzzer. *)
Lemma unique_region_dict_owner_lists (cov : dict str (gset region)) :
  wf_dict cov →
  wf_dict (get_unique_region_dict cov)
  ∧ ∀ r l, (r, l) ∈ get_unique_region_dict cov → NoDup l.
Proof.
  intros Hwf. split; [apply wf_get_unique_region_dict|].
  intros r l Hin. destruct (elem_of_unique_region_dict cov r l Hwf Hin) as [f [-> _]].
  apply NoDup_singleton.
Qed.

(** C4. [get_unique_region_cov_df] returns one row per name of the
    fuzzer-name list, in that order; the count of a fuzzer is the number of
    regions of the index whose owner list contains it, and a listed fuzzer
    that is in no owner list is reported with count 0. *)
Theorem unique_region_cov_df_correct (urd : dict region (list str))
    (fuzzer_names : list str) :
  wf_dict urd →
  (∀ r l, (r, l) ∈ urd → NoDup l) →
  uc_fuzzer (get_unique_region_cov_df urd fuzzer_names) = fuzzer_names
  ∧ unique_regions_covered (get_unique_region_cov_df urd fuzzer_names)
    = (λ f, length (filter (λ e, f ∈ e.2) urd)) <$> fuzzer_names
  ∧ (∀ i f, fuzzer_names !! i = Some f →
            (∀ r l, (r, l) ∈ urd → f ∉ l) →
            uc_rows (get_unique_region_cov_df urd fuzzer_names) !! i
            = Some (f, 0)).
Proof.
  intros Hwf Hnd. rewrite get_unique_region_cov_df_counts by done. cbn.
  assert (Forall (λ e : region * list str, NoDup e.2) urd) as Hall.
  { apply Forall_forall. intros [r l] Hin. by apply (Hnd r l). }
  assert ((λ f, sum_list_with (λ e : region * list str, occurrences f e.2) urd)
          <$> fuzzer_names
          = (λ f, length (filter (λ e : region * list str, f ∈ e.2) urd))
            <$> fuzzer_names) as Heq.
  { apply list_fmap_ext. intros _ f _. by apply sum_occurrences_filter. }
  split_and!; [done|done|].
  intros i f Hi Hnone. unfold uc_rows. cbn.
  apply lookup_zip_with_Some. exists f, 0. split_and!; [done|done|].
  rewrite Heq, list_lookup_fmap, Hi. cbn. f_equal.
  destruct (filter (λ e : region * list str, f ∈ e.2) urd) as [|[r l] t] eqn:Hf;
    [done|].
  assert ((r, l) ∈ filter (λ e : region * list str, f ∈ e.2) urd) as Hin
    by (rewrite Hf; left).
  apply list_elem_of_filter in Hin as [Hfl Hin]. by destruct (Hnone r l).
Qed.

Lemma unique_region_cov_df_correct_witness :
  uc_rows (get_unique_region_cov_df [([1%Z], [afl])] [afl; libfuzzer]) !! 1
  = Some (libfuzzer, 0).
Proof.
  assert (wf_dict [([1%Z], [afl])]) as Hwf
    by (unfold wf_dict; apply (bool_decide_unpack _); by vm_compute).
  assert (∀ (r : region) (l : list str), (r, l) ∈ [([1%Z], [afl])] → NoDup l) as Hnd.
  { intros r l [= -> ->]%list_elem_of_singleton.
    apply (bool_decide_unpack _). by vm_compute. }
  destruct (unique_region_cov_df_correct [([1%Z], [afl])] [afl; libfuzzer] Hwf Hnd)
    as (_ & _ & Hzero).
  apply Hzero; [done|].
  intros r l [= -> ->]%list_elem_of_singleton.
  apply (bool_decide_unpack _). by vm_compute.
Defined.


Lemma sum_list_fmap_with {A : Type} (g : A → nat) (l : list A) :
  sum_list (g <$> l) = sum_list_with g l.
Proof. induction l as [|x l IH]; cbn; [done|]. by rewrite IH. Qed.

Lemma sum_list_with_ones {A : Type} (g : A → nat) (l : list A) :
  (∀ x, x ∈ l → g x = 1) → sum_list_with g l = length l.
Proof.
  induction l as [|x l IH]; intros Hone; cbn; [done|].
  rewrite Hone by left. rewrite IH; [done|]. intros y Hy. apply Hone. by right.
Qed.

Lemma sum_list_with_0 {A : Type} (g : A → nat) (l : list A) :
  (∀ x, x ∈ l → g x = 0) → sum_list_with g l = 0.
Proof.
  induction l as [|x l IH]; intros Hzero; cbn; [done|].
  rewrite Hzero by left. rewrite IH; [done|]. intros y Hy. apply Hzero. by right.
Qed.

(** C9. For the index built with threshold 1 and a list of distinct fuzzer
    names that includes every owner of the index, the unique-regions-covered
    counts of the listed fuzzers add up to the number of regions of the
    index. *)
Theorem unique_counts_sum (cov : dict str (gset region)) (fuzzer_names : list str) :
  wf_dict cov →
  NoDup fuzzer_names →
  (∀ r l f, (r, l) ∈ get_unique_region_dict cov → f ∈ l → f ∈ fuzzer_names) →
  sum_list (unique_regions_covered
              (get_unique_region_cov_df (get_unique_region_dict cov) fuzzer_names))
  = length (get_unique_region_dict cov).
Proof.
  intros Hwf Hnd Howners.
  rewrite get_unique_region_cov_df_counts by apply wf_get_unique_region_dict.
  cbn. rewrite sum_list_fmap_with.
  rewrite (sum_list_with_swap (λ f (e : region * list str), occurrences f e.2)).
  apply sum_list_with_ones. intros [r l] Hin. cbn.
  destruct (elem_of_unique_region_dict cov r l Hwf Hin) as [f [-> _]].
  apply sum_occurrences_singleton; [done|].
  apply (Howners r [f] f Hin). by left.
Qed.

Lemma unique_counts_sum_witness :
  sum_list (unique_regions_covered
              (get_unique_region_cov_df (get_unique_region_dict example_cov)
                 [afl; libfuzzer]))
  = length (get_unique_region_dict example_cov).
Proof.
  apply unique_counts_sum.
  - unfold wf_dict. apply (bool_decide_unpack _). by vm_compute.
  - apply (bool_decide_unpack _). by vm_compute.
  - intros r l f Hin Hf.
    change (get_unique_region_dict example_cov)
      with [([1%Z], [afl]); ([3%Z], [libfuzzer])] in Hin.
    apply elem_of_cons in Hin as [[= -> ->]|Hin].
    + apply list_elem_of_singleton in Hf as ->. by left.
    + apply list_elem_of_singleton in Hin as [= -> ->].
      apply list_elem_of_singleton in Hf as ->. right. by left.
Defined.

(** ** Aggregate counts *)

(** C3, as the specification states it, fails when a region list repeats a
    region: the table counts the entries of the list, the set has fewer
    elements. *)
Lemma aggregated_count_counterexample :
  let d := [(lit "afl zlib", RegionList [[1%Z; 2%Z]; [1%Z; 2%Z]])] in
  ∃ df s,
    decodes_to (lit "afl zlib") afl (lit "zlib")
    ∧ get_benchmark_aggregated_cov_df d (lit "zlib") = Ok df
    ∧ get_benchmark_cov_dict d (lit "zlib") = Ok [(afl, s)]
    ∧ ac_rows df = [(afl, 2)]
    ∧ size s = 1
    ∧ (afl, size s) ∉ ac_rows df.
Proof.
  eexists _, _. split_and!; try reflexivity.
  intros Hin. apply list_elem_of_singleton in Hin. revert Hin. by vm_compute.
Qed.

(** The table has one row per entry, the filtered mapping one set per
    fuzzer: when two keys decode to the same fuzzer and benchmark, the
    mapping keeps the set of the later entry only, so the count of the
    earlier row is not the cardinality of the fuzzer's set even though no
    list repeats a region. *)
Lemma two_keys_one_fuzzer_example :
  let d := [(lit "afl zlib", RegionList [[1%Z]; [2%Z]]);
            (lit "afl" ++ [9%N] ++ lit "zlib", RegionList [[3%Z]])] in
  ∃ df s,
    get_benchmark_aggregated_cov_df d (lit "zlib") = Ok df
    ∧ get_benchmark_cov_dict d (lit "zlib") = Ok [(afl, s)]
    ∧ ac_rows df = [(afl, 2); (afl, 1)]
    ∧ size s = 1.
Proof. eexists _, _. split_and!; reflexivity. Qed.

(** C3, amended.  When every key of the coverage dictionary decodes,
    [get_benchmark_aggregated_cov_df] returns a table whose rows are
    exactly, for each entry whose key decodes to a fuzzer and the target
    benchmark, that fuzzer with the length of the entry's region list.  An
    entry with empty region data is reported with 0.  The count is the
    cardinality of the fuzzer's filtered region set, as
    [get_benchmark_cov_dict] stores it, when the list repeats no region and
    every entry that decodes to the same fuzzer and benchmark holds the
    same list. *)
Theorem aggregated_count_correct (d : dict str covered_regions) (benchmark : str) :
  Forall (λ key, length (split key) = 2) (keys d) →
  ∃ df bcd,
    get_benchmark_aggregated_cov_df d benchmark = Ok df
    ∧ get_benchmark_cov_dict d benchmark = Ok bcd
    ∧ length (ac_fuzzer df) = length (aggregated_edges_covered df)
    ∧ (∀ fuzzer n,
         (fuzzer, n) ∈ ac_rows df
         ↔ ∃ key regs, (key, regs) ∈ d ∧ decodes_to key fuzzer benchmark
                       ∧ n = len regs)
    ∧ (∀ key regs fuzzer,
         (key, regs) ∈ d → decodes_to key fuzzer benchmark →
         (py_iter regs = [] → (fuzzer, 0) ∈ ac_rows df)
         ∧ (NoDup (py_iter regs) →
            (∀ key' regs', (key', regs') ∈ d →
                           decodes_to key' fuzzer benchmark → regs' = regs) →
            ∃ s, dict_get bcd fuzzer = Some s ∧ (fuzzer, size s) ∈ ac_rows df)).
Proof.
  intros Hkeys. eexists _, _.
  split; [by apply aggregated_total|].
  split; [by apply cov_dict_total|].
  unfold ac_rows. cbn. rewrite zip_fst_snd, !length_fmap.
  assert (∀ fuzzer n,
            (fuzzer, n) ∈ omap (aggregated_row benchmark) d
            ↔ ∃ key regs, (key, regs) ∈ d ∧ decodes_to key fuzzer benchmark
                          ∧ n = len regs) as Hrows.
  { intros fuzzer n. rewrite list_elem_of_omap. unfold decodes_to. split.
    - intros [[key regs] [Hin Hrow]]. exists key, regs. split; [done|].
      unfold aggregated_row in Hrow. cbn [fst snd] in Hrow.
      destruct (split key) as [|f [|b [|c l]]]; try done.
      case_decide; by simplify_eq.
    - intros (key & regs & Hin & Hkey & ->). exists (key, regs).
      split; [done|]. unfold aggregated_row. cbn [fst snd]. rewrite Hkey.
      by rewrite decide_True. }
  split_and!; [done|done|].
  intros key regs fuzzer Hin Hkey. split.
  - intros Hempty. apply Hrows. exists key, regs. split_and!; [done|done|].
    unfold len. by rewrite Hempty.
  - intros Hnd Hsame. eexists. split.
    + by eapply dict_get_cov_dict_loop.
    + apply Hrows. exists key, regs. split_and!; [done|done|].
      by apply size_covered_regions_in_set.
Qed.

Lemma aggregated_count_correct_witness :
  ∃ df bcd,
    get_benchmark_aggregated_cov_df
      [(lit "afl zlib", RegionList [[1%Z; 2%Z]]); (lit "x zlib", EmptyDict)]
      (lit "zlib") = Ok df
    ∧ get_benchmark_cov_dict
        [(lit "afl zlib", RegionList [[1%Z; 2%Z]]); (lit "x zlib", EmptyDict)]
        (lit "zlib") = Ok bcd
    ∧ (lit "x", 0) ∈ ac_rows df
    ∧ ∃ s, dict_get bcd afl = Some s ∧ (afl, size s) ∈ ac_rows df.
Proof.
  assert (Forall (λ key, length (split key) = 2)
            (keys [(lit "afl zlib", RegionList [[1%Z; 2%Z]]);
                   (lit "x zlib", EmptyDict)])) as Hkeys
    by (repeat constructor).
  destruct (aggregated_count_correct _ (lit "zlib") Hkeys)
    as (df & bcd & Hdf & Hbcd & _ & _ & Hrow).
  exists df, bcd. split_and!; [done|done| |].
  - apply (Hrow (lit "x zlib") EmptyDict (lit "x")); [|reflexivity|reflexivity].
    right. by left.
  - apply (Hrow (lit "afl zlib") (RegionList [[1%Z; 2%Z]]) afl);
      [by left|reflexivity| |].
    + apply (bool_decide_unpack _). by vm_compute.
    + intros key' regs' [[= -> ->]|Hin]%elem_of_cons Hdec; [done|].
      apply list_elem_of_singleton in Hin as [= -> ->].
      exfalso. revert Hdec. by vm_compute.
Defined.

(** ** Failed downloads *)

(** C5, as the specification states it, fails in its downstream half for
    names that the key does not give back.  After a failed copy for the
    empty fuzzer name on ["y"], the empty value is stored under [" y"] and
    the aggregation of ["y"] raises, so no count is reported; for the
    fuzzer name ["a "] the aggregation reports ["a"], not that fuzzer. *)
Lemma failed_copy_counterexample :
  let cp := λ (_ _ : str) (w : nat), (1%Z, S w) in
  let load := λ (_ : str) (_ : nat), Raise OSError in
  (cp (src_file [] (lit "y") (lit "gs://bucket/exp"))
      (dst_file [] (lit "y") (lit "/tmp/t")) 0).1 ≠ 0%Z
  ∧ get_fuzzer_benchmark_covered_regions cp load
      ([], lit "y", lit "gs://bucket/exp", lit "/tmp/t") 0
    = (Ok (lit " y", EmptyDict), 1)
  ∧ get_benchmark_aggregated_cov_df
      (dict_set [] (lit " y") EmptyDict) (lit "y") = Raise ValueError
  ∧ get_fuzzer_benchmark_covered_regions cp load
      (lit "a ", lit "y", lit "gs://bucket/exp", lit "/tmp/t") 0
    = (Ok (lit "a  y", EmptyDict), 1)
  ∧ (ac_rows <$> match get_benchmark_aggregated_cov_df
                         (dict_set [] (lit "a  y") EmptyDict) (lit "y") with
                 | Ok df => Some df
                 | Raise _ => None
                 end) = Some [(lit "a", 0)]
  ∧ (lit "a ", 0) ∉ [(lit "a", 0)].
Proof.
  split_and!; try reflexivity.
  - cbn. lia.
  - intros Hin. apply list_elem_of_singleton in Hin. revert Hin. by vm_compute.
Qed.

(** C5, amended.  When the copy returns a non-zero status,
    [get_fuzzer_covered_regions] returns the empty value without raising,
    whatever the fuzzer, benchmark, filestore path and scratch directory,
    and the value has length 0.  Once it is stored under the pair's key in
    a dictionary whose keys decode, the aggregate table of the benchmark
    reports the fuzzer with count 0, provided the fuzzer and benchmark
    names are not empty and contain no whitespace. *)
Theorem failed_copy_yields_empty {world : Type}
    (filestore_cp : str → str → world → Z * world)
    (open_json_load : str → world → result covered_regions)
    (fuzzer benchmark filestore temp_dir : str) (w : world) :
  (filestore_cp (src_file fuzzer benchmark filestore)
     (dst_file fuzzer benchmark temp_dir) w).1 ≠ 0%Z →
  ∃ regions w',
    get_fuzzer_covered_regions filestore_cp open_json_load
      fuzzer benchmark filestore temp_dir w = (Ok regions, w')
    ∧ get_fuzzer_benchmark_covered_regions filestore_cp open_json_load
        (fuzzer, benchmark, filestore, temp_dir) w
      = (Ok (get_fuzzer_benchmark_key fuzzer benchmark, regions), w')
    ∧ py_iter regions = []
    ∧ len regions = 0
    ∧ (∀ covered_regions_dict : dict str covered_regions,
         fuzzer ≠ [] → benchmark ≠ [] →
         no_whitespace fuzzer → no_whitespace benchmark →
         Forall (λ key, length (split key) = 2) (keys covered_regions_dict) →
         ∃ df,
           get_benchmark_aggregated_cov_df
             (dict_set covered_regions_dict
                (get_fuzzer_benchmark_key fuzzer benchmark) regions)
             benchmark = Ok df
           ∧ (fuzzer, 0) ∈ ac_rows df).
Proof.
  intros Hfail. exists EmptyDict.
  unfold get_fuzzer_benchmark_covered_regions, get_fuzzer_covered_regions.
  destruct (filestore_cp _ _ w) as [retcode w'] eqn:Hcp. cbn in Hfail.
  exists w'. rewrite decide_True by done.
  split_and!; try done.
  intros d Hf Hb Hfw Hbw Hkeys.
  pose proof (split_key fuzzer benchmark Hf Hb Hfw Hbw) as Hkey.
  eexists. split.
  - apply aggregated_total. rewrite keys_dict_set.
    case_decide; [done|]. apply Forall_app. split; [done|].
    apply Forall_singleton. by rewrite Hkey.
  - unfold ac_rows. cbn. rewrite zip_fst_snd. apply list_elem_of_omap.
    exists (get_fuzzer_benchmark_key fuzzer benchmark, EmptyDict). split.
    + apply dict_get_elem_of, dict_get_set_eq.
    + unfold aggregated_row. cbn [fst snd]. rewrite Hkey.
      by rewrite decide_True.
Qed.

Lemma failed_copy_yields_empty_witness :
  ∃ regions w' df,
    get_fuzzer_covered_regions
      (λ _ _ (w : nat), (1%Z, S w)) (λ _ _, Raise OSError)
      (lit "x") (lit "y") (lit "gs://bucket/exp") (lit "/tmp/t") 0
    = (Ok regions, w')
    ∧ len regions = 0
    ∧ get_benchmark_aggregated_cov_df
        (dict_set [(lit "afl y", RegionList [[1%Z]])]
           (get_fuzzer_benchmark_key (lit "x") (lit "y")) regions)
        (lit "y") = Ok df
    ∧ (lit "x", 0) ∈ ac_rows df.
Proof.
  assert (((λ _ _ (w : nat), (1%Z, S w))
             (src_file (lit "x") (lit "y") (lit "gs://bucket/exp"))
             (dst_file (lit "x") (lit "y") (lit "/tmp/t")) 0).1 ≠ 0%Z) as Hfail
    by (cbn; lia).
  destruct (failed_copy_yields_empty
              (λ _ _ (w : nat), (1%Z, S w)) (λ _ _, Raise OSError)
              (lit "x") (lit "y") (lit "gs://bucket/exp") (lit "/tmp/t") 0 Hfail)
    as (regions & w' & Hget & _ & _ & Hlen & Hdown).
  destruct (Hdown [(lit "afl y", RegionList [[1%Z]])]) as (df & Hdf & Hrow);
    [done|done
    |apply (bool_decide_unpack _); by vm_compute
    |apply (bool_decide_unpack _); by vm_compute
    |repeat constructor|].
  by exists regions, w', df.
Defined.

(** ** Fuzzers missing from the mapping *)

(** C6, as the specification states it, fails for the pairwise table: a
    listed fuzzer that is not a key of the mapping makes the builder raise
    [KeyError], so no table is produced. *)
Lemma missing_fuzzer_counterexample :
  lit "honggfuzz" ∈ [afl; lit "honggfuzz"]
  ∧ dict_get example_cov (lit "honggfuzz") = None
  ∧ get_pairwise_unique_coverage_table example_cov [afl; lit "honggfuzz"]
    = Raise KeyError
  ∧ ¬ ∃ t, get_pairwise_unique_coverage_table example_cov [afl; lit "honggfuzz"]
           = Ok t.
Proof.
  split_and!; [right; left|reflexivity|reflexivity|].
  intros [t Ht]. revert Ht. by vm_compute.
Qed.

(** C6, amended.  The unique-region count table is complete whatever the
    fuzzer list: it has one row per listed fuzzer, and a listed fuzzer that
    is not a key of the mapping is reported with count 0.  The pairwise
    table is produced exactly when every listed fuzzer is a key of the
    mapping; otherwise the builder raises [KeyError]. *)
Theorem missing_fuzzer_behaviour (cov : dict str (gset region)) (fuzzers : list str) :
  wf_dict cov →
  uc_fuzzer (get_unique_region_cov_df (get_unique_region_dict cov) fuzzers)
  = fuzzers
  ∧ length (unique_regions_covered
              (get_unique_region_cov_df (get_unique_region_dict cov) fuzzers))
    = length fuzzers
  ∧ (∀ i f, fuzzers !! i = Some f → dict_get cov f = None →
            uc_rows (get_unique_region_cov_df (get_unique_region_dict cov) fuzzers)
              !! i = Some (f, 0))
  ∧ ((∃ f, f ∈ fuzzers ∧ dict_get cov f = None)
     ↔ get_pairwise_unique_coverage_table cov fuzzers = Raise KeyError)
  ∧ ((∀ f, f ∈ fuzzers → is_Some (dict_get cov f))
     ↔ ∃ t, get_pairwise_unique_coverage_table cov fuzzers = Ok t).
Proof.
  intros Hwf.
  rewrite get_unique_region_cov_df_counts by apply wf_get_unique_region_dict.
  unfold uc_rows. cbn. rewrite length_fmap.
  setoid_rewrite <- (Forall_forall (λ f, is_Some (dict_get cov f)) fuzzers).
  pose proof (decide (Forall (λ f, is_Some (dict_get cov f)) fuzzers)) as Hdec.
  assert (¬ Forall (λ f, is_Some (dict_get cov f)) fuzzers →
          ∃ f, f ∈ fuzzers ∧ dict_get cov f = None) as Hmissing.
  { intros Hex%not_Forall_Exists; [|intros f; apply _].
    apply Exists_exists in Hex as [f [Hin Hf]]. exists f. split; [done|].
    cbn in Hf. by apply eq_None_not_Some. }
  split_and!; [done|done| | |].
  - intros i f Hi Hf. apply lookup_zip_with_Some. exists f, 0.
    split_and!; [done|done|]. rewrite list_lookup_fmap, Hi. cbn. f_equal.
    apply sum_list_with_0. intros [r l] Hin. cbn.
    destruct (elem_of_unique_region_dict cov r l Hwf Hin) as [g [-> Hg]].
    apply occurrences_not_elem_of. intros ->%list_elem_of_singleton.
    assert (g ∈ owners cov r) as Hgo by (rewrite Hg; left).
    apply elem_of_owners in Hgo as [s [Hs _]].
    apply (elem_of_wf_dict _ _ _ Hwf) in Hs. congruence.
  - split.
    + intros [f [Hin Hf]]. by eapply pairwise_raises.
    + intros Hraise. destruct Hdec as [Hall|Hnot]; [|by apply Hmissing].
      rewrite pairwise_total in Hraise by done. discriminate.
  - split.
    + intros Hall. eexists. by apply pairwise_total.
    + intros [t Ht]. destruct Hdec as [Hall|Hnot]; [done|].
      destruct (Hmissing Hnot) as [f [Hin Hf]].
      rewrite (pairwise_raises cov fuzzers f Hin Hf) in Ht. discriminate.
Qed.

Lemma missing_fuzzer_behaviour_witness :
  uc_rows (get_unique_region_cov_df (get_unique_region_dict example_cov)
             [afl; lit "honggfuzz"]) !! 1 = Some (lit "honggfuzz", 0).
Proof.
  assert (wf_dict example_cov) as Hwf
    by (unfold wf_dict; apply (bool_decide_unpack _); by vm_compute).
  destruct (missing_fuzzer_behaviour example_cov [afl; lit "honggfuzz"] Hwf)
    as (_ & _ & Hzero & _).
  by apply Hzero.
Defined.

(** ** Keys *)

(** C7, as the specification states it, fails for an empty name: the empty
    string contains no whitespace, yet the key of an empty fuzzer name and
    ["zlib"] splits into one token and the decoding raises. *)
Lemma key_roundtrip_counterexample :
  no_whitespace [] ∧ no_whitespace (lit "zlib")
  ∧ get_fuzzer_benchmark_key [] (lit "zlib") = lit " zlib"
  ∧ split (get_fuzzer_benchmark_key [] (lit "zlib")) = [lit "zlib"]
  ∧ unpack2 (split (get_fuzzer_benchmark_key [] (lit "zlib")))
    ≠ Ok ([], lit "zlib").
Proof.
  split_and!; [constructor|apply (bool_decide_unpack _); by vm_compute
              |reflexivity|reflexivity|by vm_compute].
Qed.

(** C7, amended.  For every non-empty fuzzer name and non-empty benchmark
    name that contain no whitespace, [get_fuzzer_benchmark_key] is the two
    names joined by one space, and splitting the key on whitespace, as
    [get_benchmark_cov_dict] does, gives back the pair. *)
Theorem key_roundtrip (fuzzer benchmark : str) :
  fuzzer ≠ [] → benchmark ≠ [] →
  no_whitespace fuzzer → no_whitespace benchmark →
  get_fuzzer_benchmark_key fuzzer benchmark = fuzzer ++ [32%N] ++ benchmark
  ∧ unpack2 (split (get_fuzzer_benchmark_key fuzzer benchmark))
    = Ok (fuzzer, benchmark).
Proof.
  intros Hf Hb Hfw Hbw. split; [done|]. by rewrite split_key.
Qed.

Lemma key_roundtrip_witness :
  get_fuzzer_benchmark_key afl (lit "zlib") = afl ++ [32%N] ++ lit "zlib"
  ∧ unpack2 (split (get_fuzzer_benchmark_key afl (lit "zlib")))
    = Ok (afl, lit "zlib").
Proof.
  apply key_roundtrip; [done|done| |];
    apply (bool_decide_unpack _); by vm_compute.
Defined.

(** C10. When some key of the coverage dictionary does not split into
    exactly two whitespace-delimited tokens, [get_benchmark_cov_dict] and
    [get_benchmark_aggregated_cov_df] both raise and return nothing. *)
Theorem malformed_key_raises (d : dict str covered_regions) (benchmark : str) :
  (∃ key regs, (key, regs) ∈ d ∧ length (split key) ≠ 2) →
  get_benchmark_cov_dict d benchmark = Raise ValueError
  ∧ get_benchmark_aggregated_cov_df d benchmark = Raise ValueError.
Proof.
  intros (key & regs & Hin & Hbad).
  split; apply for_loop_raises.
  - intros bcd [k r] e' _. cbn beta iota.
    destruct (split k) as [|a [|b [|c l]]]; cbn; try congruence.
    by case_decide.
  - exists (key, regs). split; [done|]. intros bcd. cbn beta iota.
    by rewrite unpack2_split_raises.
  - intros dtt [k r] e' _. cbn beta iota.
    destruct (split k) as [|a [|b [|c l]]]; cbn; try congruence.
    by case_decide.
  - exists (key, regs). split; [done|]. intros dtt. cbn beta iota.
    by rewrite unpack2_split_raises.
Qed.

Lemma malformed_key_raises_witness :
  get_benchmark_cov_dict
    [(lit "afl zlib", EmptyDict); (lit "my fuzzer zlib", EmptyDict)] (lit "zlib")
  = Raise ValueError
  ∧ get_benchmark_aggregated_cov_df
      [(lit "afl zlib", EmptyDict); (lit "my fuzzer zlib", EmptyDict)] (lit "zlib")
    = Raise ValueError.
Proof.
  apply malformed_key_raises.
  exists (lit "my fuzzer zlib"), EmptyDict. split; [right; left|].
  by vm_compute.
Defined.

(** ** Paths *)

(** C8, as the specification states it, fails for a filestore root that
    ends with the separator: [posixpath.join] does not insert a second
    one. *)
Lemma path_layout_counterexample :
  let root := lit "gs://bucket/" in
  let exp := lit "exp" in
  get_experiment_filestore_path
    [{| row_experiment_filestore := root; row_experiment := exp;
        row_fuzzer := afl; row_benchmark := lit "zlib" |}]
  = Ok (lit "gs://bucket/exp")
  ∧ src_file afl (lit "zlib") (lit "gs://bucket/exp")
    = lit "gs://bucket/exp/coverage/data/zlib/afl/covered_regions.json"
  ∧ src_file afl (lit "zlib") (lit "gs://bucket/exp")
    ≠ root ++ lit "/" ++ exp ++ lit "/coverage/data/" ++ lit "zlib"
      ++ lit "/" ++ afl ++ lit "/covered_regions.json".
Proof. split_and!; [reflexivity|reflexivity|by vm_compute]. Qed.

(** C8, amended.  For a filestore root that is not empty and does not end
    with a slash, and an experiment name, benchmark and fuzzer that are not
    empty and neither start nor end with a slash, the path from which the
    coverage data is copied is
    [<root>/<experiment>/coverage/data/<benchmark>/<fuzzer>/covered_regions.json]
    and the report path is
    [<root>/<experiment>/coverage/reports/<benchmark>/<fuzzer>/index.html],
    the root and experiment being those of the first row of the data
    frame (for the report, the first row of the fuzzer on the
    benchmark). *)
Theorem path_layout (root exp benchmark fuzzer : str) :
  open_root root → plain exp → plain benchmark → plain fuzzer →
  (∀ (experiment_df : list experiment_row) row,
     head experiment_df = Some row →
     row_experiment_filestore row = root → row_experiment row = exp →
     ∃ filestore,
       get_experiment_filestore_path experiment_df = Ok filestore
       ∧ src_file fuzzer benchmark filestore
         = root ++ lit "/" ++ exp ++ lit "/coverage/data/" ++ benchmark
           ++ lit "/" ++ fuzzer ++ lit "/covered_regions.json"
       ∧ ∀ (world : Type) (filestore_cp : str → str → world → Z * world)
           open_json_load temp_dir w,
           get_fuzzer_covered_regions filestore_cp open_json_load
             fuzzer benchmark filestore temp_dir w
           = let '(retcode, w') :=
               filestore_cp
                 (root ++ lit "/" ++ exp ++ lit "/coverage/data/" ++ benchmark
                  ++ lit "/" ++ fuzzer ++ lit "/covered_regions.json")
                 (dst_file fuzzer benchmark temp_dir) w in
             if decide (retcode ≠ 0%Z) then (Ok EmptyDict, w')
             else (open_json_load (dst_file fuzzer benchmark temp_dir) w', w'))
  ∧ (∀ (df : list experiment_row) row,
       head (filter (λ r, row_benchmark r = benchmark)
               (filter (λ r, row_fuzzer r = fuzzer) df)) = Some row →
       row_experiment_filestore row = root → row_experiment row = exp →
       get_coverage_report_filestore_path fuzzer benchmark df
       = Ok (root ++ lit "/" ++ exp ++ lit "/coverage/reports/" ++ benchmark
             ++ lit "/" ++ fuzzer ++ lit "/index.html")).
Proof.
  intros Hroot Hexp Hbench Hfuzz.
  destruct (experiment_path_plain root exp Hroot Hexp) as [Hjoin Hopen].
  split.
  - intros experiment_df row Hhead <- <-. eexists.
    split; [by apply get_experiment_filestore_path_head|].
    assert (src_file fuzzer benchmark
              (posixpath_join (row_experiment_filestore row) [row_experiment row])
            = row_experiment_filestore row ++ lit "/" ++ row_experiment row
              ++ lit "/coverage/data/" ++ benchmark ++ lit "/" ++ fuzzer
              ++ lit "/covered_regions.json") as Hsrc.
    { unfold src_file. rewrite Hjoin.
      rewrite (join5_plain _ _ _ _ _ _ Hopen plain_coverage plain_data Hbench Hfuzz)
        by done.
      by rewrite <- !app_assoc. }
    split; [done|].
    intros world filestore_cp open_json_load temp_dir w.
    unfold get_fuzzer_covered_regions. by rewrite Hsrc.
  - intros df row Hhead <- <-. unfold get_coverage_report_filestore_path.
    rewrite (get_experiment_filestore_path_head _ row Hhead). cbn [mbind result_bind mret result_ret].
    f_equal. rewrite Hjoin.
    rewrite (join5_plain _ _ _ _ _ _ Hopen plain_coverage plain_reports Hbench Hfuzz)
      by done.
    by rewrite <- !app_assoc.
Qed.

Lemma path_layout_witness :
  get_coverage_report_filestore_path afl (lit "zlib")
    [{| row_experiment_filestore := lit "gs://bucket"; row_experiment := lit "exp";
        row_fuzzer := libfuzzer; row_benchmark := lit "zlib" |};
     {| row_experiment_filestore := lit "gs://bucket"; row_experiment := lit "exp";
        row_fuzzer := afl; row_benchmark := lit "zlib" |}]
  = Ok (lit "gs://bucket/exp/coverage/reports/zlib/afl/index.html").
Proof.
  assert (open_root (lit "gs://bucket")) as Hroot
    by (apply (bool_decide_unpack _); by vm_compute).
  assert (plain (lit "exp")) as Hexp
    by (apply (bool_decide_unpack _); by vm_compute).
  assert (plain (lit "zlib")) as Hbench
    by (apply (bool_decide_unpack _); by vm_compute).
  assert (plain afl) as Hfuzz
    by (apply (bool_decide_unpack _); by vm_compute).
  destruct (path_layout (lit "gs://bucket") (lit "exp") (lit "zlib") afl
              Hroot Hexp Hbench Hfuzz) as [_ Hreport].
  by rewrite (Hreport _ {| row_experiment_filestore := lit "gs://bucket";
                           row_experiment := lit "exp";
                           row_fuzzer := afl; row_benchmark := lit "zlib" |}).
Defined.

(** * Further properties of the code *)

(** ** Keys and file names *)

Lemma split_at_first (c : char) (a a' b b' : str) :
  c ∉ a → c ∉ a' → a ++ c :: b = a' ++ c :: b' → a = a' ∧ b = b'.
Proof.
  revert a'. induction a as [|x a IH]; intros [|x' a'] Ha Ha' Heq; cbn in Heq.
  - by simplify_eq.
  - simplify_eq. exfalso. apply Ha'. by left.
  - simplify_eq. exfalso. apply Ha. by left.
  - apply not_elem_of_cons in Ha as [_ Ha].
    apply not_elem_of_cons in Ha' as [_ Ha'].
    injection Heq as -> Heq. destruct (IH a' Ha Ha' Heq) as [-> ->]. done.
Qed.

Lemma no_whitespace_space (s : str) : no_whitespace s → 32%N ∉ s.
Proof.
  intros Hs Hin. unfold no_whitespace in Hs. rewrite Forall_forall in Hs.
  specialize (Hs _ Hin). by vm_compute in Hs.
Qed.

(** X1. Two pairs of names whose fuzzer names contain no whitespace have
    the same key only if they are the same pair. *)
Theorem key_injective (fuzzer benchmark fuzzer' benchmark' : str) :
  no_whitespace fuzzer → no_whitespace fuzzer' →
  get_fuzzer_benchmark_key fuzzer benchmark
  = get_fuzzer_benchmark_key fuzzer' benchmark' →
  fuzzer = fuzzer' ∧ benchmark = benchmark'.
Proof.
  intros Hf Hf' Heq. unfold get_fuzzer_benchmark_key in Heq.
  apply (split_at_first 32%N); [by apply no_whitespace_space..|done].
Qed.

Lemma key_injective_witness :
  afl = afl ∧ lit "zlib" = lit "zlib".
Proof.
  apply key_injective; [| |reflexivity];
    apply (bool_decide_unpack _); by vm_compute.
Defined.

(** X2. [get_experiment_filestore_path] raises [IndexError] on a frame
    without rows, and on any other frame returns the filestore and the
    experiment of the first row joined, whatever the later rows hold. *)
Theorem experiment_filestore_path_first_row :
  get_experiment_filestore_path [] = Raise IndexError
  ∧ ∀ row rest,
      get_experiment_filestore_path (row :: rest)
      = Ok (posixpath_join (row_experiment_filestore row) [row_experiment row]).
Proof.
  split; [done|]. intros row rest.
  by apply get_experiment_filestore_path_head.
Qed.

(** X3. [get_coverage_report_filestore_path] raises [IndexError] exactly
    when the frame has no row of the fuzzer on the benchmark; it raises
    nothing else. *)
Theorem coverage_report_path_no_row (fuzzer benchmark : str)
    (df : list experiment_row) :
  (get_coverage_report_filestore_path fuzzer benchmark df = Raise IndexError
   ↔ ¬ ∃ row, row ∈ df ∧ row_fuzzer row = fuzzer ∧ row_benchmark row = benchmark)
  ∧ ∀ e, get_coverage_report_filestore_path fuzzer benchmark df = Raise e →
         e = IndexError.
Proof.
  unfold get_coverage_report_filestore_path.
  destruct (filter (λ r, row_benchmark r = benchmark)
              (filter (λ r, row_fuzzer r = fuzzer) df)) as [|row rest] eqn:Hf.
  - split; [|by intros e [= <-]]. split; [|done]. intros _ (row & Hin & Hfz & Hb).
    assert (row ∈ filter (λ r, row_benchmark r = benchmark)
                    (filter (λ r, row_fuzzer r = fuzzer) df)) as Hrow
      by (rewrite !list_elem_of_filter; done).
    rewrite Hf in Hrow. by apply elem_of_nil in Hrow.
  - rewrite (get_experiment_filestore_path_head _ row) by done.
    split; [|done]. split; [done|]. intros Hnone. exfalso. apply Hnone.
    assert (row ∈ filter (λ r, row_benchmark r = benchmark)
                    (filter (λ r, row_fuzzer r = fuzzer) df)) as Hrow
      by (rewrite Hf; left).
    rewrite !list_elem_of_filter in Hrow. exists row. naive_solver.
Qed.

(** X4. In one scratch directory, two pairs whose fuzzer names contain no
    hyphen and do not start with a slash are copied to different scratch
    files unless they are the same pair. *)
Theorem dst_file_injective (temp_dir fuzzer benchmark fuzzer' benchmark' : str) :
  open_root temp_dir →
  startswith sep fuzzer = false → startswith sep fuzzer' = false →
  hyphen ∉ fuzzer → hyphen ∉ fuzzer' →
  dst_file fuzzer benchmark temp_dir = dst_file fuzzer' benchmark' temp_dir →
  fuzzer = fuzzer' ∧ benchmark = benchmark'.
Proof.
  intros Hroot Hs Hs' Hh Hh'. unfold dst_file. cbn [posixpath_join foldl].
  rewrite !join_step_last; [|done|by destruct fuzzer'|done|by destruct fuzzer].
  intros Heq. apply app_inv_head in Heq. injection Heq as Heq.
  change (lit "-" ++ ?x) with (hyphen :: x) in Heq.
  destruct (split_at_first hyphen _ _ _ _ Hh Hh' Heq) as [-> Hb].
  split; [done|]. by apply app_inv_tail in Hb.
Qed.

Lemma dst_file_injective_witness :
  afl = afl ∧ lit "zlib" = lit "zlib".
Proof.
  apply (dst_file_injective (lit "/tmp/scratch"));
    [apply (bool_decide_unpack _); by vm_compute
    |reflexivity|reflexivity
    |apply (bool_decide_unpack _); by vm_compute
    |apply (bool_decide_unpack _); by vm_compute
    |reflexivity].
Defined.

(** X5. For a benchmark name that starts with a slash and does not end
    with one, and a fuzzer name that is not empty and neither starts nor
    ends with a slash, the source path is
    [<benchmark>/<fuzzer>/covered_regions.json]: the filestore is dropped
    from the path. *)
Theorem src_file_absolute_benchmark (fuzzer benchmark filestore : str) :
  startswith sep benchmark = true → endswith sep benchmark = false →
  plain fuzzer →
  src_file fuzzer benchmark filestore
  = benchmark ++ lit "/" ++ fuzzer ++ lit "/covered_regions.json".
Proof.
  intros Hs He Hfuzz. unfold src_file. cbn [posixpath_join foldl].
  assert (∀ path, join_step path benchmark = benchmark) as ->
    by (intros path; unfold join_step; by rewrite Hs).
  assert (open_root benchmark) as Hopen by (split; [by destruct benchmark|done]).
  destruct (join_step_plain _ _ Hopen Hfuzz) as [-> Hopen'].
  rewrite join_step_last by done. by rewrite <- !app_assoc.
Qed.

Lemma src_file_absolute_benchmark_witness :
  src_file afl (lit "/etc") (lit "gs://bucket/exp")
  = lit "/etc" ++ lit "/" ++ afl ++ lit "/covered_regions.json".
Proof.
  apply src_file_absolute_benchmark; [reflexivity|reflexivity|].
  apply (bool_decide_unpack _). by vm_compute.
Defined.

(** ** The unique-region index *)

(** X6. Every entry of the index that [get_unique_region_dict] builds maps
    a region to a list of exactly one fuzzer, and that fuzzer has the
    region in its set; no region is listed twice. *)
Theorem unique_region_dict_entries (cov : dict str (gset region)) :
  wf_dict cov →
  wf_dict (get_unique_region_dict cov)
  ∧ ∀ r l, (r, l) ∈ get_unique_region_dict cov →
           ∃ f, l = [f] ∧ covers cov f r.
Proof.
  intros Hwf. split; [apply wf_get_unique_region_dict|].
  intros r l Hin.
  destruct (elem_of_unique_region_dict cov r l Hwf Hin) as [f [-> Hf]].
  exists f. split; [done|]. apply covers_owners; [done|]. rewrite Hf. by left.
Qed.

Lemma unique_region_dict_entries_witness :
  wf_dict (get_unique_region_dict example_cov)
  ∧ ∃ f, [afl] = [f] ∧ covers example_cov f [1%Z].
Proof.
  assert (wf_dict example_cov) as Hwf
    by (unfold wf_dict; apply (bool_decide_unpack _); by vm_compute).
  destruct (unique_region_dict_entries example_cov Hwf) as [Hidx Hentries].
  split; [done|]. apply Hentries. by left.
Defined.

(** X7. The index does not depend on the order of the fuzzers in the
    mapping: two mappings with the same entries in a different order give
    the same owner list for every region. *)
Theorem unique_region_dict_order (cov cov' : dict str (gset region)) (r : region) :
  wf_dict cov → cov ≡ₚ cov' →
  dict_get (get_unique_region_dict cov) r
  = dict_get (get_unique_region_dict cov') r.
Proof.
  intros Hwf Hperm.
  assert (wf_dict cov') as Hwf'.
  { unfold wf_dict, keys in *. by rewrite <- Hperm. }
  rewrite !dict_get_unique_region_dict by done.
  assert (owners cov r ≡ₚ owners cov' r) as Ho
    by (unfold owners; by rewrite Hperm).
  destruct (owners cov r) as [|f [|g o]].
  - apply Permutation_nil_l in Ho. by rewrite <- Ho.
  - apply Permutation_singleton_l in Ho. by rewrite <- Ho.
  - destruct (owners cov' r) as [|f' [|g' o']]; [done| |done].
    apply Permutation_length in Ho. done.
Qed.

Lemma unique_region_dict_order_witness :
  dict_get (get_unique_region_dict example_cov) [3%Z]
  = dict_get (get_unique_region_dict (reverse example_cov)) [3%Z].
Proof.
  apply unique_region_dict_order.
  - unfold wf_dict. apply (bool_decide_unpack _). by vm_compute.
  - symmetry. apply reverse_Permutation.
Defined.

Lemma NoDup_singleton_all {A : Type} (l : list A) (x : A) :
  NoDup l → x ∈ l → (∀ y, y ∈ l → y = x) → l = [x].
Proof.
  intros Hnd Hx Hall. destruct l as [|y [|z l]].
  - by apply elem_of_nil in Hx.
  - f_equal. apply Hall. by left.
  - exfalso. apply NoDup_cons in Hnd as [Hy _]. apply Hy.
    rewrite (Hall y) by left. rewrite <- (Hall z) by (right; left). by left.
Qed.

(** The regions that only [f] covers are those of its set that lie in no
    other fuzzer's set. *)
Lemma owners_single (cov : dict str (gset region)) (f : str) (sf : gset region)
    (r : region) :
  wf_dict cov → dict_get cov f = Some sf →
  owners cov r = [f] ↔ r ∈ sf ∖ ⋃ other_sets cov f.
Proof.
  intros Hwf Hf. rewrite elem_of_difference, elem_of_union_list. split.
  - intros Ho. split.
    + assert (f ∈ owners cov r) as Hin by (rewrite Ho; left).
      apply elem_of_owners in Hin as [s [Hs Hr]].
      apply (elem_of_wf_dict _ _ _ Hwf) in Hs. by simplify_eq.
    + intros [s [Hs Hr]]. unfold other_sets in Hs.
      apply list_elem_of_fmap in Hs as [[g s'] [-> [Hne Hin]%list_elem_of_filter]].
      cbn in *. assert (g ∈ owners cov r) as Hg
        by (apply elem_of_owners; eauto).
      rewrite Ho in Hg. by apply list_elem_of_singleton in Hg.
  - intros [Hr Hother]. apply NoDup_singleton_all.
    + by apply NoDup_owners.
    + apply elem_of_owners. exists sf. split; [|done]. by apply dict_get_elem_of.
    + intros g [s [Hs Hrs]]%elem_of_owners.
      destruct (decide (g = f)) as [|Hne]; [done|]. exfalso. apply Hother.
      exists s. split; [|done]. unfold other_sets.
      apply list_elem_of_fmap. exists (g, s). split; [done|].
      by apply list_elem_of_filter.
Qed.

Lemma NoDup_filter_keys {K V : Type} (P : K * V → Prop)
    `{∀ e, Decision (P e)} (d : dict K V) :
  wf_dict d → NoDup (filter P d).*1.
Proof.
  unfold wf_dict, keys. induction d as [|[k v] d IH]; [constructor|].
  rewrite fmap_cons, filter_cons. intros [Hk Hd]%NoDup_cons.
  case_decide; [|auto]. rewrite fmap_cons. apply NoDup_cons. split; [|auto].
  intros [[k' v'] [Heq [_ Hin]%list_elem_of_filter]]%list_elem_of_fmap.
  cbn in Heq. subst k'. apply Hk. by apply (list_elem_of_fmap_2 fst _ (k, v')).
Qed.

Lemma unique_count_size (cov : dict str (gset region)) (f : str)
    (sf : gset region) :
  wf_dict cov → dict_get cov f = Some sf →
  sum_list_with (λ e, occurrences f e.2) (get_unique_region_dict cov)
  = size (sf ∖ ⋃ other_sets cov f).
Proof.
  intros Hwf Hf.
  rewrite sum_occurrences_filter.
  2:{ apply Forall_forall. intros [r l] Hin.
      destruct (elem_of_unique_region_dict cov r l Hwf Hin) as [g [-> _]].
      apply NoDup_singleton. }
  rewrite <- (length_fmap fst). unfold size, set_size. cbn.
  apply Permutation_length, NoDup_Permutation.
  - apply NoDup_filter_keys, wf_get_unique_region_dict.
  - apply NoDup_elements.
  - intros r. rewrite elem_of_elements, <- (owners_single cov f sf r) by done.
    rewrite list_elem_of_fmap. split.
    + intros [[r' l] [-> [Hfl Hin]%list_elem_of_filter]]. cbn in *.
      destruct (elem_of_unique_region_dict cov r' l Hwf Hin) as [g [-> Hg]].
      apply list_elem_of_singleton in Hfl. by subst.
    + intros Ho. exists (r, [f]). split; [done|].
      apply list_elem_of_filter. split; [by left|].
      apply dict_get_elem_of. rewrite dict_get_unique_region_dict by done.
      by rewrite Ho.
Qed.

(** X8. The unique-regions-covered count of a listed fuzzer that is a key
    of the mapping is the number of regions of its set that lie in no other
    fuzzer's set. *)
Theorem unique_count_closed_form (cov : dict str (gset region))
    (fuzzer_names : list str) (i : nat) (f : str) (sf : gset region) :
  wf_dict cov →
  fuzzer_names !! i = Some f → dict_get cov f = Some sf →
  uc_rows (get_unique_region_cov_df (get_unique_region_dict cov) fuzzer_names)
    !! i
  = Some (f, size (sf ∖ ⋃ other_sets cov f)).
Proof.
  intros Hwf Hi Hf.
  rewrite get_unique_region_cov_df_counts by apply wf_get_unique_region_dict.
  unfold uc_rows. cbn. apply lookup_zip_with_Some. eexists f, _.
  split_and!; [done|done|]. rewrite list_lookup_fmap, Hi. cbn. f_equal.
  by apply unique_count_size.
Qed.

Lemma unique_count_closed_form_witness :
  uc_rows (get_unique_region_cov_df (get_unique_region_dict example_cov)
             [libfuzzer; afl]) !! 1
  = Some (afl, size (({[ [1%Z]; [2%Z] ]} : gset region)
                     ∖ ⋃ other_sets example_cov afl)).
Proof.
  apply unique_count_closed_form; [|reflexivity|reflexivity].
  unfold wf_dict. apply (bool_decide_unpack _). by vm_compute.
Defined.

(** X9. The unique-regions-covered count of a fuzzer never exceeds the
    pairwise value in its column for any other fuzzer of the mapping: a
    region that only it covers is in particular absent from the other
    fuzzer's set. *)
Theorem unique_count_le_pairwise (cov : dict str (gset region))
    (fuzzer_names : list str) (i : nat) (f g : str) (sf sg : gset region) :
  wf_dict cov →
  fuzzer_names !! i = Some f →
  dict_get cov f = Some sf → dict_get cov g = Some sg → g ≠ f →
  ∃ n,
    unique_regions_covered
      (get_unique_region_cov_df (get_unique_region_dict cov) fuzzer_names) !! i
    = Some n
    ∧ n ≤ get_unique_covered_percentage sg sf.
Proof.
  intros Hwf Hi Hf Hg Hne.
  rewrite get_unique_region_cov_df_counts by apply wf_get_unique_region_dict.
  cbn. rewrite list_lookup_fmap, Hi. cbn. eexists. split; [done|].
  rewrite (unique_count_size cov f sf) by done.
  rewrite get_unique_covered_percentage_size. apply subseteq_size.
  intros r [Hr Hother]%elem_of_difference. apply elem_of_difference.
  split; [done|]. intros Hrg. apply Hother. apply elem_of_union_list.
  exists sg. split; [|done]. unfold other_sets.
  apply list_elem_of_fmap. exists (g, sg). split; [done|].
  apply list_elem_of_filter. split; [done|]. by apply dict_get_elem_of.
Qed.

Lemma unique_count_le_pairwise_witness :
  ∃ n,
    unique_regions_covered
      (get_unique_region_cov_df (get_unique_region_dict example_cov)
         [afl; libfuzzer]) !! 0 = Some n
    ∧ n ≤ get_unique_covered_percentage {[ [2%Z]; [3%Z] ]} {[ [1%Z]; [2%Z] ]}.
Proof.
  apply (unique_count_le_pairwise example_cov [afl; libfuzzer] 0 afl libfuzzer);
    [|reflexivity|reflexivity|reflexivity|by vm_compute].
  unfold wf_dict. apply (bool_decide_unpack _). by vm_compute.
Defined.

(** ** The pairwise table *)

Lemma pairwise_cells (cov : dict str (gset region)) (fuzzers : list str)
    (i j : nat) (A B : str) (sA sB : gset region) :
  (∀ f, f ∈ fuzzers → is_Some (dict_get cov f)) →
  fuzzers !! i = Some A → fuzzers !! j = Some B →
  dict_get cov A = Some sA → dict_get cov B = Some sB →
  ∃ t, get_pairwise_unique_coverage_table cov fuzzers = Ok t
       ∧ pw_cell t i j = Some (size (sB ∖ sA))
       ∧ pw_cell t j i = Some (size (sA ∖ sB)).
Proof.
  intros Hall%Forall_forall Hi Hj HA HB.
  eexists. split; [by apply pairwise_total|].
  unfold pw_cell. cbn.
  rewrite !list_lookup_fmap, Hi, Hj. cbn.
  rewrite !list_lookup_fmap, Hi, Hj. cbn.
  rewrite HA, HB. cbn. by rewrite !get_unique_covered_percentage_size.
Qed.

(** X10. A cell of the pairwise table is 0 exactly when the column
    fuzzer's set is included in the row fuzzer's set. *)
Theorem pairwise_cell_zero_iff_subset (cov : dict str (gset region))
    (fuzzers : list str) (i j : nat) (A B : str) (sA sB : gset region) :
  (∀ f, f ∈ fuzzers → is_Some (dict_get cov f)) →
  fuzzers !! i = Some A → fuzzers !! j = Some B →
  dict_get cov A = Some sA → dict_get cov B = Some sB →
  ∃ t, get_pairwise_unique_coverage_table cov fuzzers = Ok t
       ∧ (pw_cell t i j = Some 0 ↔ sB ⊆ sA).
Proof.
  intros Hall Hi Hj HA HB.
  destruct (pairwise_cells cov fuzzers i j A B sA sB Hall Hi Hj HA HB)
    as (t & Ht & Hij & _).
  exists t. split; [done|]. rewrite Hij. split.
  - intros [= Hsize]. apply size_empty_iff in Hsize.
    intros r Hr. destruct (decide (r ∈ sA)) as [|Hnr]; [done|].
    exfalso. apply (not_elem_of_empty (C:=gset region) r).
    rewrite <- Hsize. by apply elem_of_difference.
  - intros Hsub. f_equal. apply size_empty_iff. set_solver.
Qed.

Lemma pairwise_cell_zero_iff_subset_witness :
  ∃ t, get_pairwise_unique_coverage_table
         [(afl, {[ [1%Z]; [2%Z] ]}); (libfuzzer, {[ [2%Z] ]})] [afl; libfuzzer]
       = Ok t
       ∧ (pw_cell t 0 1 = Some 0
          ↔ ({[ [2%Z] ]} : gset region) ⊆ {[ [1%Z]; [2%Z] ]}).
Proof.
  apply (pairwise_cell_zero_iff_subset _ _ 0 1 afl libfuzzer);
    [|reflexivity|reflexivity|reflexivity|reflexivity].
  intros f Hf. by apply dict_get_is_Some.
Defined.

(** X11. The two cells of a pair of fuzzers differ by the difference of the
    sizes of their sets: each cell plus the size of its row's set is the
    number of regions that either fuzzer covers. *)
Theorem pairwise_cells_balance (cov : dict str (gset region))
    (fuzzers : list str) (i j : nat) (A B : str) (sA sB : gset region) :
  (∀ f, f ∈ fuzzers → is_Some (dict_get cov f)) →
  fuzzers !! i = Some A → fuzzers !! j = Some B →
  dict_get cov A = Some sA → dict_get cov B = Some sB →
  ∃ t n m,
    get_pairwise_unique_coverage_table cov fuzzers = Ok t
    ∧ pw_cell t i j = Some n ∧ pw_cell t j i = Some m
    ∧ n + size sA = size (sA ∪ sB)
    ∧ n + size sA = m + size sB.
Proof.
  intros Hall Hi Hj HA HB.
  destruct (pairwise_cells cov fuzzers i j A B sA sB Hall Hi Hj HA HB)
    as (t & Ht & Hij & Hji).
  exists t, (size (sB ∖ sA)), (size (sA ∖ sB)). split_and!; [done..| |].
  - pose proof (size_union_alt sA sB) as H1. lia.
  - pose proof (size_union_alt sA sB) as H1.
    pose proof (size_union_alt sB sA) as H2.
    replace (sB ∪ sA) with (sA ∪ sB) in H2 by set_solver. lia.
Qed.

Lemma pairwise_cells_balance_witness :
  ∃ t n m,
    get_pairwise_unique_coverage_table example_cov [afl; libfuzzer] = Ok t
    ∧ pw_cell t 0 1 = Some n ∧ pw_cell t 1 0 = Some m
    ∧ n + size ({[ [1%Z]; [2%Z] ]} : gset region)
      = size (({[ [1%Z]; [2%Z] ]} : gset region) ∪ {[ [2%Z]; [3%Z] ]})
    ∧ n + size ({[ [1%Z]; [2%Z] ]} : gset region)
      = m + size ({[ [2%Z]; [3%Z] ]} : gset region).
Proof.
  apply (pairwise_cells_balance example_cov _ 0 1 afl libfuzzer);
    [|reflexivity|reflexivity|reflexivity|reflexivity].
  intros f Hf. by apply dict_get_is_Some.
Defined.

(** X12. A fuzzer whose set is empty has, in its row, the full size of
    every column fuzzer's set and, in its column, zeros. *)
Theorem pairwise_empty_set (cov : dict str (gset region))
    (fuzzers : list str) (i j : nat) (A B : str) (sB : gset region) :
  (∀ f, f ∈ fuzzers → is_Some (dict_get cov f)) →
  fuzzers !! i = Some A → fuzzers !! j = Some B →
  dict_get cov A = Some ∅ → dict_get cov B = Some sB →
  ∃ t, get_pairwise_unique_coverage_table cov fuzzers = Ok t
       ∧ pw_cell t i j = Some (size sB)
       ∧ pw_cell t j i = Some 0.
Proof.
  intros Hall Hi Hj HA HB.
  destruct (pairwise_cells cov fuzzers i j A B ∅ sB Hall Hi Hj HA HB)
    as (t & Ht & Hij & Hji).
  exists t. split; [done|]. rewrite Hij, Hji. split; f_equal.
  - f_equal. set_solver.
  - apply size_empty_iff. set_solver.
Qed.

Lemma pairwise_empty_set_witness :
  ∃ t, get_pairwise_unique_coverage_table
         [(afl, ∅); (libfuzzer, {[ [2%Z]; [3%Z] ]})] [afl; libfuzzer] = Ok t
       ∧ pw_cell t 0 1 = Some (size ({[ [2%Z]; [3%Z] ]} : gset region))
       ∧ pw_cell t 1 0 = Some 0.
Proof.
  apply (pairwise_empty_set _ _ 0 1 afl libfuzzer);
    [|reflexivity|reflexivity|reflexivity|reflexivity].
  intros f Hf. by apply dict_get_is_Some.
Defined.

(** ** The per-benchmark mapping *)

Lemma elem_of_keys_dict_set {K V : Type} `{EqDecision K}
    (d : dict K V) (k k' : K) (v : V) :
  k' ∈ keys (dict_set d k v) ↔ k' = k ∨ k' ∈ keys d.
Proof.
  rewrite keys_dict_set. case_decide as Hk.
  - split; [by right|]. by intros [->|?].
  - rewrite elem_of_app, list_elem_of_singleton. tauto.
Qed.

Lemma keys_cov_dict_loop (benchmark : str) (l : dict str covered_regions)
    (bcd : dict str (gset region)) (f : str) :
  f ∈ keys (foldl (cov_dict_step benchmark) bcd l)
  ↔ f ∈ keys bcd ∨ ∃ key regs, (key, regs) ∈ l ∧ decodes_to key f benchmark.
Proof.
  revert bcd. induction l as [|[key regs] l IH]; intros bcd; cbn [foldl].
  - split; [by left|]. intros [?|(? & ? & Hin & _)]; [done|].
    by apply elem_of_nil in Hin.
  - rewrite IH. clear IH. unfold cov_dict_step, decodes_to. cbn [fst snd].
    split.
    + intros [Hin|(key' & regs' & Hin & Hdec)].
      * destruct (split key) as [|g [|b [|c t]]] eqn:Hs; try by left.
        case_decide; [|by left]. subst b.
        apply elem_of_keys_dict_set in Hin as [->|Hin]; [|by left].
        right. exists key, regs. split; [by left|done].
      * right. exists key', regs'. split; [by right|done].
    + intros [Hin|(key' & regs' & Hin & Hdec)].
      * left. destruct (split key) as [|g [|b [|c t]]]; try done.
        case_decide; [|done]. apply elem_of_keys_dict_set. by right.
      * apply elem_of_cons in Hin as [[= -> ->]|Hin].
        -- left. rewrite Hdec. rewrite decide_True by done.
           apply elem_of_keys_dict_set. by left.
        -- right. by exists key', regs'.
Qed.

Lemma wf_cov_dict_loop (benchmark : str) (l : dict str covered_regions)
    (bcd : dict str (gset region)) :
  wf_dict bcd → wf_dict (foldl (cov_dict_step benchmark) bcd l).
Proof.
  revert bcd. induction l as [|[key regs] l IH]; intros bcd Hwf; [done|].
  cbn [foldl]. apply IH. unfold cov_dict_step. cbn [fst snd].
  destruct (split key) as [|g [|b [|c t]]]; try done.
  case_decide; [by apply wf_dict_set|done].
Qed.

(** X13. When every key decodes, the mapping that
    [get_benchmark_cov_dict] returns has one entry per fuzzer, and its
    fuzzers are exactly those with an entry for the target benchmark:
    entries of other benchmarks add nothing. *)
Theorem benchmark_cov_dict_keys (d : dict str covered_regions) (benchmark : str) :
  Forall (λ key, length (split key) = 2) (keys d) →
  ∃ bcd,
    get_benchmark_cov_dict d benchmark = Ok bcd
    ∧ wf_dict bcd
    ∧ ∀ fuzzer,
        fuzzer ∈ keys bcd
        ↔ ∃ key regs, (key, regs) ∈ d ∧ decodes_to key fuzzer benchmark.
Proof.
  intros Hkeys. eexists. split; [by apply cov_dict_total|]. split.
  - apply wf_cov_dict_loop. constructor.
  - intros fuzzer. rewrite keys_cov_dict_loop. split; [|by right].
    intros [Hin|?]; [|done]. by apply elem_of_nil in Hin.
Qed.

Lemma benchmark_cov_dict_keys_witness :
  ∃ bcd,
    get_benchmark_cov_dict
      [(lit "afl zlib", RegionList [[1%Z]]); (lit "afl libpng", EmptyDict)]
      (lit "zlib") = Ok bcd
    ∧ wf_dict bcd
    ∧ ∀ fuzzer,
        fuzzer ∈ keys bcd
        ↔ ∃ key regs,
            (key, regs) ∈ [(lit "afl zlib", RegionList [[1%Z]]);
                           (lit "afl libpng", EmptyDict)]
            ∧ decodes_to key fuzzer (lit "zlib").
Proof.
  apply benchmark_cov_dict_keys. repeat constructor.
Defined.

Lemma canonical_key_split (key : str) :
  canonical_key key → length (split key) = 2.
Proof.
  intros (f & b & Hf & Hb & Hfw & Hbw & ->). by rewrite split_key.
Qed.

(** X14. In a dictionary whose keys were all built by
    [get_fuzzer_benchmark_key] from names that are not empty and contain no
    whitespace, what is stored under the key of a pair comes back from
    [get_benchmark_cov_dict] under the fuzzer's name as the set of the
    regions of the list: a region is in the set exactly when it is in the
    list. *)
Theorem benchmark_cov_dict_lookup (d : dict str covered_regions)
    (fuzzer benchmark : str) (regs : covered_regions) :
  wf_dict d →
  (∀ key, key ∈ keys d → canonical_key key) →
  fuzzer ≠ [] → benchmark ≠ [] →
  no_whitespace fuzzer → no_whitespace benchmark →
  dict_get d (get_fuzzer_benchmark_key fuzzer benchmark) = Some regs →
  ∃ bcd s,
    get_benchmark_cov_dict d benchmark = Ok bcd
    ∧ dict_get bcd fuzzer = Some s
    ∧ ∀ r, r ∈ s ↔ r ∈ py_iter regs.
Proof.
  intros Hwf Hcanon Hf Hb Hfw Hbw Hget.
  exists (foldl (cov_dict_step benchmark) [] d), (covered_regions_in_set regs).
  split_and!.
  - apply cov_dict_total, Forall_forall. intros key Hkey.
    by apply canonical_key_split, Hcanon.
  - apply (dict_get_cov_dict_loop benchmark fuzzer
             (get_fuzzer_benchmark_key fuzzer benchmark)).
    + by apply dict_get_elem_of.
    + by apply split_key.
    + intros key' regs' Hin Hdec.
      destruct (Hcanon key') as (f' & b' & Hf' & Hb' & Hfw' & Hbw' & ->).
      { by apply (list_elem_of_fmap_2 fst _ (key', regs')). }
      unfold decodes_to in Hdec. rewrite split_key in Hdec by done.
      injection Hdec as -> ->.
      apply (elem_of_wf_dict _ _ _ Hwf) in Hin. congruence.
  - intros r. rewrite covered_regions_in_set_list. apply elem_of_list_to_set.
Qed.

Lemma benchmark_cov_dict_lookup_witness :
  ∃ bcd s,
    get_benchmark_cov_dict
      [(get_fuzzer_benchmark_key afl (lit "zlib"), RegionList [[1%Z]; [1%Z]])]
      (lit "zlib") = Ok bcd
    ∧ dict_get bcd afl = Some s
    ∧ ∀ r, r ∈ s ↔ r ∈ py_iter (RegionList [[1%Z]; [1%Z]]).
Proof.
  assert (no_whitespace afl) as Hafl
    by (apply (bool_decide_unpack _); by vm_compute).
  assert (no_whitespace (lit "zlib")) as Hzlib
    by (apply (bool_decide_unpack _); by vm_compute).
  apply benchmark_cov_dict_lookup; try done.
  - unfold wf_dict. apply (bool_decide_unpack _). by vm_compute.
  - intros key Hkey. apply list_elem_of_singleton in Hkey as ->.
    by exists afl, (lit "zlib").
Defined.

Lemma cov_dict_raises (d : dict str covered_regions) (benchmark : str) :
  Exists (λ key, length (split key) ≠ 2) (keys d) →
  get_benchmark_cov_dict d benchmark = Raise ValueError.
Proof.
  intros (key & Hin & Hbad)%Exists_exists.
  apply list_elem_of_fmap in Hin as [[key' regs] [-> Hin]].
  apply for_loop_raises.
  - intros bcd [k r] e' _. cbn beta iota.
    destruct (split k) as [|a [|b [|c l]]]; cbn; try congruence.
    by case_decide.
  - exists (key', regs). split; [done|]. intros bcd. cbn beta iota.
    by rewrite unpack2_split_raises.
Qed.

Lemma aggregated_raises (d : dict str covered_regions) (benchmark : str) :
  Exists (λ key, length (split key) ≠ 2) (keys d) →
  get_benchmark_aggregated_cov_df d benchmark = Raise ValueError.
Proof.
  intros (key & Hin & Hbad)%Exists_exists.
  apply list_elem_of_fmap in Hin as [[key' regs] [-> Hin]].
  apply for_loop_raises.
  - intros dtt [k r] e' _. cbn beta iota.
    destruct (split k) as [|a [|b [|c l]]]; cbn; try congruence.
    by case_decide.
  - exists (key', regs). split; [done|]. intros dtt. cbn beta iota.
    by rewrite unpack2_split_raises.
Qed.

(** X15. [get_benchmark_cov_dict] and [get_benchmark_aggregated_cov_df]
    return a result exactly when every key of the dictionary splits into
    two tokens, those of other benchmarks included, and [ValueError] is
    the only exception that either raises. *)
Theorem aggregation_succeeds_iff (d : dict str covered_regions) (benchmark : str) :
  ((∃ bcd, get_benchmark_cov_dict d benchmark = Ok bcd)
   ↔ Forall (λ key, length (split key) = 2) (keys d))
  ∧ ((∃ df, get_benchmark_aggregated_cov_df d benchmark = Ok df)
     ↔ Forall (λ key, length (split key) = 2) (keys d))
  ∧ (∀ e, get_benchmark_cov_dict d benchmark = Raise e → e = ValueError)
  ∧ (∀ e, get_benchmark_aggregated_cov_df d benchmark = Raise e →
          e = ValueError).
Proof.
  destruct (decide (Forall (λ key, length (split key) = 2) (keys d)))
    as [Hall|Hnot].
  - rewrite cov_dict_total, aggregated_total by done.
    split_and!; try done; split; eauto.
  - apply not_Forall_Exists in Hnot; [|intros key; apply _].
    assert (Exists (λ key, length (split key) ≠ 2) (keys d)) as Hex
      by (eapply Exists_impl; [exact Hnot|]; done).
    rewrite cov_dict_raises, aggregated_raises by done.
    split_and!.
    + split; [by intros [? ?]|]. intros Hall. exfalso.
      apply Exists_exists in Hex as (key & Hin & Hbad).
      rewrite Forall_forall in Hall. by apply Hbad, Hall.
    + split; [by intros [? ?]|]. intros Hall. exfalso.
      apply Exists_exists in Hex as (key & Hin & Hbad).
      rewrite Forall_forall in Hall. by apply Hbad, Hall.
    + by intros e [= <-].
    + by intros e [= <-].
Qed.

(** ** The retrieval pipeline *)

Lemma for_loop_io_total {W S A : Type} (body : S → A → W → result S * W)
    (step : S → A → S) (s : S) (l : list A) (w : W) :
  (∀ s x w, x ∈ l → (body s x w).1 = Ok (step s x)) →
  (for_loop_io body s l w).1 = Ok (foldl step s l).
Proof.
  revert s w. induction l as [|x l IH]; intros s w Hbody; [done|].
  cbn. pose proof (Hbody s x w (list_elem_of_here _ _)) as Hx.
  destruct (body s x w) as [[s'|e] w']; cbn in Hx; [|done].
  injection Hx as ->. apply IH. intros s' y w'' Hy. apply Hbody. by right.
Qed.

Lemma sequential_map_order_preserving {W A B : Type} :
  order_preserving_pool (@sequential_map W A B).
Proof.
  intros f g args. induction args as [|x args IH]; intros w Hf; [done|].
  cbn. pose proof (Hf x w (list_elem_of_here _ _)) as Hx.
  destruct (f x w) as [[y|e] w']; cbn in Hx; [|done]. injection Hx as ->.
  assert ((sequential_map f args w').1 = Ok (g <$> args)) as Hrest
    by (apply IH; intros y w'' Hy; apply Hf; by right).
  destruct (sequential_map f args w') as [[ys|e] w'']; cbn in Hrest; [|done].
  by injection Hrest as ->.
Qed.

Lemma elem_of_unique_from {A : Type} `{EqDecision A} (seen l : list A) (x : A) :
  x ∈ unique_from seen l ↔ x ∈ l ∧ x ∉ seen.
Proof.
  revert seen. induction l as [|y l IH]; intros seen; cbn.
  - split; [by intros ?%elem_of_nil|by intros [?%elem_of_nil _]].
  - case_decide as Hy.
    + rewrite IH, elem_of_cons. split; [tauto|].
      intros [[->|?] ?]; [done|tauto].
    + rewrite !elem_of_cons, IH, not_elem_of_cons.
      destruct (decide (x = y)) as [->|Hne]; tauto.
Qed.

Lemma elem_of_unique {A : Type} `{EqDecision A} (l : list A) (x : A) :
  x ∈ unique l ↔ x ∈ l.
Proof.
  unfold unique. rewrite elem_of_unique_from. split; [tauto|].
  intros Hx. split; [done|]. apply not_elem_of_nil.
Qed.

Section store_all.
Context {K V : Type} `{EqDecision K}.
Implicit Types (d l : dict K V).

(** The loop [for k, v in l: d[k] = v]. *)
Lemma keys_store_all d l k :
  k ∈ keys (foldl (λ d '(k, v), dict_set d k v) d l) ↔ k ∈ keys d ∨ k ∈ keys l.
Proof.
  revert d. induction l as [|[k0 v0] l IH]; intros d; cbn [foldl].
  - unfold keys at 3. cbn. rewrite elem_of_nil. tauto.
  - rewrite IH, elem_of_keys_dict_set. unfold keys at 3 4.
    rewrite fmap_cons, elem_of_cons. cbn. tauto.
Qed.

Lemma wf_store_all d l :
  wf_dict d → wf_dict (foldl (λ d '(k, v), dict_set d k v) d l).
Proof.
  revert d. induction l as [|[k0 v0] l IH]; intros d Hwf; [done|].
  cbn [foldl]. apply IH. by apply wf_dict_set.
Qed.

Lemma elem_of_dict_set d k v k' v' :
  (k', v') ∈ dict_set d k v → (k', v') = (k, v) ∨ (k', v') ∈ d.
Proof.
  induction d as [|[k0 v0] d IH]; cbn.
  - intros ?%list_elem_of_singleton. by left.
  - case_decide.
    + intros [?|?]%elem_of_cons; [by left|]. right. by right.
    + intros [->|?]%elem_of_cons; [right; by left|].
      destruct IH as [?|?]; [done|by left|]. right. by right.
Qed.

Lemma elem_of_store_all d l k v :
  (k, v) ∈ foldl (λ d '(k, v), dict_set d k v) d l → (k, v) ∈ d ∨ (k, v) ∈ l.
Proof.
  revert d. induction l as [|[k0 v0] l IH]; intros d; cbn [foldl]; [by left|].
  intros [Hin|Hin]%IH; [|right; by right].
  apply elem_of_dict_set in Hin as [->|Hin]; [right; by left|by left].
Qed.
End store_all.

Lemma foldl_bind {S A B : Type} (f : S → B → S) (g : A → list B)
    (s : S) (l : list A) :
  foldl (λ s x, foldl f s (g x)) s l = foldl f s (l ≫= g).
Proof.
  revert s. induction l as [|x l IH]; intros s; cbn; [done|].
  by rewrite IH, foldl_app.
Qed.

Section failing_copies.
Context {world : Type}.
Variable filestore_cp : str → str → world → Z * world.
Variable open_json_load : str → world → result covered_regions.
Variable mkdtemp : world → str * world.
Variable rmtree : str → world → world.
Variable pool_map :
  (str * str * str * str → world → result (str * covered_regions) * world) →
  list (str * str * str * str) → world →
  result (list (str * covered_regions)) * world.

Hypothesis pool_ok : order_preserving_pool pool_map.
Hypothesis copy_fails : ∀ src dst w, (filestore_cp src dst w).1 ≠ 0%Z.

Lemma failing_task (args : str * str * str * str) (w : world) :
  (get_fuzzer_benchmark_covered_regions filestore_cp open_json_load args w).1
  = Ok (get_fuzzer_benchmark_key args.1.1.1 args.1.1.2, EmptyDict).
Proof.
  destruct args as [[[fuzzer benchmark] filestore] temp_dir].
  unfold get_fuzzer_benchmark_covered_regions, get_fuzzer_covered_regions.
  pose proof (copy_fails (src_file fuzzer benchmark filestore)
                (dst_file fuzzer benchmark temp_dir) w) as Hfail.
  destruct (filestore_cp _ _ w) as [retcode w']. cbn in Hfail.
  by rewrite decide_True by done.
Qed.

Lemma covered_regions_dict_failing (experiment_df : list experiment_row)
    (w : world) :
  experiment_df ≠ [] →
  (get_covered_regions_dict filestore_cp open_json_load mkdtemp rmtree
     pool_map experiment_df w).1
  = Ok (foldl (λ d '(k, v), dict_set d k v) []
          (unique (row_benchmark <$> experiment_df)
           ≫= failed_entries experiment_df)).
Proof.
  intros Hdf. unfold get_covered_regions_dict.
  destruct (mkdtemp w) as [temp_dir w1].
  destruct experiment_df as [|row rest]; [done|].
  rewrite (get_experiment_filestore_path_head _ row) by done.
  match goal with
  | |- (let '(r, w) := ?loop in _).1 = _ =>
      assert (loop.1 = Ok (foldl (λ d '(k, v), dict_set d k v) []
                             (unique (row_benchmark <$> row :: rest)
                              ≫= failed_entries (row :: rest)))) as Hloop;
      [|destruct loop as [r w2]; exact Hloop]
  end.
  rewrite <- foldl_bind. apply for_loop_io_total.
  intros d benchmark w2 _. cbn beta zeta.
  match goal with
  | |- (let '(x, w) := pool_map ?f ?args w2 in _).1 = _ =>
      pose proof (pool_ok f
                    (λ a, (get_fuzzer_benchmark_key a.1.1.1 a.1.1.2, EmptyDict))
                    args w2 (λ x w _, failing_task x w)) as Hpool;
      destruct (pool_map f args w2) as [fbcr w3]
  end.
  cbn in Hpool. subst fbcr. cbn. f_equal. f_equal.
  unfold failed_entries. by rewrite <- list_fmap_compose.
Qed.

Lemma keys_failed_dict (experiment_df : list experiment_row) (key : str) :
  key ∈ keys (foldl (λ d '(k, v), dict_set d k v) []
                (unique (row_benchmark <$> experiment_df)
                 ≫= failed_entries experiment_df))
  ↔ ∃ row, row ∈ experiment_df
           ∧ key = get_fuzzer_benchmark_key (row_fuzzer row) (row_benchmark row).
Proof.
  rewrite keys_store_all. unfold keys. split.
  - intros [Hin|Hin]; [by apply elem_of_nil in Hin|].
    apply list_elem_of_fmap in Hin as [[k v] [-> Hin]].
    apply list_elem_of_bind in Hin as [benchmark [Hin Hb]].
    unfold failed_entries in Hin.
    apply list_elem_of_fmap in Hin as [fuzzer [[= -> ->] Hfz]].
    apply elem_of_unique, list_elem_of_fmap in Hfz as [row [-> Hrow]].
    apply list_elem_of_filter in Hrow as [<- Hrow]. by exists row.
  - intros [row [Hrow ->]]. right. apply list_elem_of_fmap.
    exists (get_fuzzer_benchmark_key (row_fuzzer row) (row_benchmark row),
            EmptyDict).
    split; [done|]. apply list_elem_of_bind. exists (row_benchmark row). split.
    + unfold failed_entries. apply list_elem_of_fmap. exists (row_fuzzer row).
      split; [done|]. apply elem_of_unique, list_elem_of_fmap_2.
      by apply list_elem_of_filter.
    + by apply elem_of_unique, list_elem_of_fmap_2.
Qed.

Lemma values_failed_dict (experiment_df : list experiment_row)
    (key : str) (regs : covered_regions) :
  (key, regs) ∈ foldl (λ d '(k, v), dict_set d k v) []
                  (unique (row_benchmark <$> experiment_df)
                   ≫= failed_entries experiment_df) →
  regs = EmptyDict.
Proof.
  intros [Hin|Hin]%elem_of_store_all; [by apply elem_of_nil in Hin|].
  apply list_elem_of_bind in Hin as [benchmark [Hin _]].
  unfold failed_entries in Hin.
  by apply list_elem_of_fmap in Hin as [fuzzer [[= -> ->] _]].
Qed.
End failing_copies.

(** X16. On a frame without rows [get_covered_regions_dict] raises
    [IndexError], whatever the pool; the scratch directory has been created
    and is removed, and nothing else happens to the world. *)
Theorem covered_regions_dict_empty_frame {world : Type}
    (filestore_cp : str → str → world → Z * world)
    (open_json_load : str → world → result covered_regions)
    (mkdtemp : world → str * world) (rmtree : str → world → world)
    (pool_map :
       (str * str * str * str → world → result (str * covered_regions) * world) →
       list (str * str * str * str) → world →
       result (list (str * covered_regions)) * world)
    (w : world) :
  get_covered_regions_dict filestore_cp open_json_load mkdtemp rmtree pool_map
    [] w
  = (Raise IndexError, rmtree (mkdtemp w).1 (mkdtemp w).2).
Proof. unfold get_covered_regions_dict. by destruct (mkdtemp w). Qed.

(** X17. With a pool that returns the results in the order of the
    arguments, when every copy reports a non-zero status
    [get_covered_regions_dict] on a frame with rows raises nothing: it
    returns a dictionary whose keys are exactly the keys of the
    fuzzer-benchmark pairs of the frame, each once, and every value is the
    empty dict. *)
Theorem covered_regions_dict_all_copies_fail {world : Type}
    (filestore_cp : str → str → world → Z * world)
    (open_json_load : str → world → result covered_regions)
    (mkdtemp : world → str * world) (rmtree : str → world → world)
    (pool_map :
       (str * str * str * str → world → result (str * covered_regions) * world) →
       list (str * str * str * str) → world →
       result (list (str * covered_regions)) * world)
    (experiment_df : list experiment_row) (w : world) :
  order_preserving_pool pool_map →
  (∀ src dst w, (filestore_cp src dst w).1 ≠ 0%Z) →
  experiment_df ≠ [] →
  ∃ d,
    (get_covered_regions_dict filestore_cp open_json_load mkdtemp rmtree
       pool_map experiment_df w).1 = Ok d
    ∧ wf_dict d
    ∧ (∀ key,
         key ∈ keys d
         ↔ ∃ row, row ∈ experiment_df
                  ∧ key = get_fuzzer_benchmark_key (row_fuzzer row)
                            (row_benchmark row))
    ∧ (∀ key regs, (key, regs) ∈ d → regs = EmptyDict).
Proof.
  intros Hpool Hfail Hdf. eexists.
  split; [by apply covered_regions_dict_failing|]. split_and!.
  - apply wf_store_all. constructor.
  - apply keys_failed_dict.
  - apply values_failed_dict.
Qed.

Lemma covered_regions_dict_all_copies_fail_witness :
  ∃ d,
    (get_covered_regions_dict
       (λ _ _ (w : nat), (1%Z, S w)) (λ _ _, Raise OSError)
       (λ w, (lit "/tmp/scratch", w)) (λ _ w, w) sequential_map
       [{| row_experiment_filestore := lit "gs://bucket";
           row_experiment := lit "exp";
           row_fuzzer := afl; row_benchmark := lit "zlib" |}] 0).1 = Ok d
    ∧ wf_dict d.
Proof.
  destruct (covered_regions_dict_all_copies_fail
              (λ _ _ (w : nat), (1%Z, S w)) (λ _ _, Raise OSError)
              (λ w, (lit "/tmp/scratch", w)) (λ _ w, w) sequential_map
              [{| row_experiment_filestore := lit "gs://bucket";
                  row_experiment := lit "exp";
                  row_fuzzer := afl; row_benchmark := lit "zlib" |}] 0)
    as (d & Hd & Hwf & _).
  - apply sequential_map_order_preserving.
  - intros src dst w. cbn. lia.
  - done.
  - by exists d.
Defined.

(** X18. Under the same conditions, when the names of the frame are not
    empty and contain no whitespace, the aggregate table of any benchmark
    computed from the returned dictionary lists exactly the fuzzers that the
    frame has on that benchmark, each with count 0. *)
Theorem failed_retrieval_aggregates_to_zero {world : Type}
    (filestore_cp : str → str → world → Z * world)
    (open_json_load : str → world → result covered_regions)
    (mkdtemp : world → str * world) (rmtree : str → world → world)
    (pool_map :
       (str * str * str * str → world → result (str * covered_regions) * world) →
       list (str * str * str * str) → world →
       result (list (str * covered_regions)) * world)
    (experiment_df : list experiment_row) (w : world) (benchmark : str) :
  order_preserving_pool pool_map →
  (∀ src dst w, (filestore_cp src dst w).1 ≠ 0%Z) →
  experiment_df ≠ [] →
  (∀ row, row ∈ experiment_df → clean_names row) →
  ∃ d df,
    (get_covered_regions_dict filestore_cp open_json_load mkdtemp rmtree
       pool_map experiment_df w).1 = Ok d
    ∧ get_benchmark_aggregated_cov_df d benchmark = Ok df
    ∧ ∀ fuzzer n,
        (fuzzer, n) ∈ ac_rows df
        ↔ n = 0 ∧ ∃ row, row ∈ experiment_df ∧ row_fuzzer row = fuzzer
                         ∧ row_benchmark row = benchmark.
Proof.
  intros Hpool Hfail Hdf Hclean. eexists _, _.
  split; [by apply covered_regions_dict_failing|].
  set (d := foldl _ [] _).
  assert (∀ key, key ∈ keys d ↔
            ∃ row, row ∈ experiment_df
                   ∧ key = get_fuzzer_benchmark_key (row_fuzzer row)
                             (row_benchmark row)) as Hkeys
    by apply keys_failed_dict.
  assert (∀ key regs, (key, regs) ∈ d → regs = EmptyDict) as Hvalues
    by apply values_failed_dict.
  assert (∀ row, row ∈ experiment_df →
            split (get_fuzzer_benchmark_key (row_fuzzer row) (row_benchmark row))
            = [row_fuzzer row; row_benchmark row]) as Hsplit.
  { intros row Hrow. destruct (Hclean row Hrow) as (? & ? & ? & ?).
    by apply split_key. }
  split.
  - apply aggregated_total, Forall_forall. intros key Hkey.
    apply Hkeys in Hkey as [row [Hrow ->]]. by rewrite Hsplit.
  - intros fuzzer n. unfold ac_rows. cbn. rewrite zip_fst_snd.
    rewrite list_elem_of_omap. split.
    + intros [[key regs] [Hin Hrow]].
      pose proof (Hvalues key regs Hin) as ->.
      assert (key ∈ keys d) as Hkey
        by (by apply (list_elem_of_fmap_2 fst _ (key, EmptyDict))).
      apply Hkeys in Hkey as [row [Hrow' ->]].
      unfold aggregated_row in Hrow. cbn [fst snd] in Hrow.
      rewrite Hsplit in Hrow by done. case_decide; [|done].
      injection Hrow as <- <-. split; [done|]. by exists row.
    + intros [-> (row & Hrow & <- & <-)].
      assert (get_fuzzer_benchmark_key (row_fuzzer row) (row_benchmark row)
              ∈ keys d) as Hkey by (apply Hkeys; by exists row).
      apply dict_get_is_Some in Hkey as [regs Hget].
      apply dict_get_elem_of in Hget.
      pose proof (Hvalues _ _ Hget) as ->.
      eexists. split; [exact Hget|].
      unfold aggregated_row. cbn [fst snd]. rewrite Hsplit by done.
      by rewrite decide_True.
Qed.

Lemma failed_retrieval_aggregates_to_zero_witness :
  ∃ d df,
    (get_covered_regions_dict
       (λ _ _ (w : nat), (1%Z, S w)) (λ _ _, Raise OSError)
       (λ w, (lit "/tmp/scratch", w)) (λ _ w, w) sequential_map
       [{| row_experiment_filestore := lit "gs://bucket";
           row_experiment := lit "exp";
           row_fuzzer := afl; row_benchmark := lit "zlib" |}] 0).1 = Ok d
    ∧ get_benchmark_aggregated_cov_df d (lit "zlib") = Ok df
    ∧ (afl, 0) ∈ ac_rows df.
Proof.
  destruct (failed_retrieval_aggregates_to_zero
              (λ _ _ (w : nat), (1%Z, S w)) (λ _ _, Raise OSError)
              (λ w, (lit "/tmp/scratch", w)) (λ _ w, w) sequential_map
              [{| row_experiment_filestore := lit "gs://bucket";
                  row_experiment := lit "exp";
                  row_fuzzer := afl; row_benchmark := lit "zlib" |}] 0
              (lit "zlib"))
    as (d & df & Hd & Hdf & Hrows).
  - apply sequential_map_order_preserving.
  - intros src dst w. cbn. lia.
  - done.
  - intros row ->%list_elem_of_singleton.
    apply (bool_decide_unpack _). by vm_compute.
  - exists d, df. split_and!; [done|done|].
    apply Hrows. split; [done|]. eexists. split; [by left|done].
Defined.

(** ** From the combined map to the pairwise table *)

(** X19. When every key of the combined map decodes, the pairwise table
    over the mapping that [get_benchmark_cov_dict] returns is produced,
    without [KeyError], for any list of fuzzers that each have an entry for
    the benchmark in the combined map. *)
Theorem benchmark_pairwise_total (d : dict str covered_regions)
    (benchmark : str) (fuzzers : list str) :
  Forall (λ key, length (split key) = 2) (keys d) →
  (∀ f, f ∈ fuzzers →
        ∃ key regs, (key, regs) ∈ d ∧ decodes_to key f benchmark) →
  ∃ bcd t,
    get_benchmark_cov_dict d benchmark = Ok bcd
    ∧ get_pairwise_unique_coverage_table bcd fuzzers = Ok t
    ∧ pw_index t = fuzzers ∧ pw_columns t = fuzzers.
Proof.
  intros Hkeys Hfuzzers. eexists _, _.
  split; [by apply cov_dict_total|].
  split.
  - apply pairwise_total, Forall_forall. intros f Hf.
    apply dict_get_is_Some, keys_cov_dict_loop. right. by apply Hfuzzers.
  - done.
Qed.

Lemma benchmark_pairwise_total_witness :
  ∃ bcd t,
    get_benchmark_cov_dict
      [(lit "afl zlib", RegionList [[1%Z]]); (lit "libfuzzer zlib", EmptyDict)]
      (lit "zlib") = Ok bcd
    ∧ get_pairwise_unique_coverage_table bcd [libfuzzer; afl] = Ok t
    ∧ pw_index t = [libfuzzer; afl] ∧ pw_columns t = [libfuzzer; afl].
Proof.
  apply benchmark_pairwise_total; [repeat constructor|].
  intros f [->|[->|Hf]%elem_of_cons]%elem_of_cons.
  - exists (lit "libfuzzer zlib"), EmptyDict. split; [right; left|reflexivity].
  - exists (lit "afl zlib"), (RegionList [[1%Z]]). split; [left|reflexivity].
  - by apply elem_of_nil in Hf.
Defined.
